(** * theanets.activations: the activation catalogue and its factory

    A shallow embedding of [theanets/activations.py].

    - Python strings are [string]; the values that can sit in an attribute
      or in a keyword dictionary are the small universe [pyval].
    - Exceptions are explicit: every fallible operation returns a [result].
    - A Theano tensor is a shape together with a row-major buffer.  In
      [TT] its elements are real numbers: the formulas are read with exact
      arithmetic, which is enough for shapes, for the order of application
      and for what the formulas mean.  In [F64] the elements are binary64
      floats ([floatX = float64]) and the rectifiers are computed as the
      program computes them, rounding and overflow included.
    - [build] recurses on the segments of a ['+']-joined name, which are not
      subterms of the name; it is defined by well-founded recursion on the
      length of the name. *)

From Stdlib Require Import List String Ascii Bool Arith ZArith Lia.
From Stdlib Require Import DecimalString.
From Stdlib Require Import Reals Lra.
From Stdlib Require Floats.PrimFloat.
From Equations Require Import Equations.
From Equations.Prop Require Import Logic.
Import ListNotations.

Set Implicit Arguments.
Set Warnings "-register-all".

(** ** Exceptions *)

(** The exceptions that can leave this module.  [UnknownActivationError],
    [DuplicateKeyError] and [EmptySegmentError] are the names the
    specification gives to the registry's failures; the others are Python's
    own. *)
Inductive error : Type :=
| UnknownActivationError
| DuplicateKeyError
| EmptySegmentError
| NotImplementedError
| AttributeError
| TypeError
| ValueError.

Inductive result (A : Type) : Type :=
| Ok (a : A)
| Raise (e : error).

Arguments Ok {A} a.
Arguments Raise {A} e.

Definition bind {A B : Type} (r : result A) (k : A -> result B) : result B :=
  match r with
  | Ok a => k a
  | Raise e => Raise e
  end.

Notation "x <- r ;; k" := (bind r (fun x => k))
  (at level 61, r at next level, right associativity).

Fixpoint mapM {A B : Type} (f : A -> result B) (l : list A) : result (list B) :=
  match l with
  | [] => Ok []
  | a :: l' => b <- f a ;; bs <- mapM f l' ;; Ok (b :: bs)
  end.

(** ** Python strings *)

Module Str.

Local Open Scope char_scope.

Definition backslash : ascii := ascii_of_nat 92.
Definition squote : ascii := ascii_of_nat 39.
Definition dquote : ascii := ascii_of_nat 34.

(** [c in s] for a one-character [c]. *)
Fixpoint contains (c : ascii) (s : string) : bool :=
  match s with
  | EmptyString => false
  | String d r => Ascii.eqb d c || contains c r
  end.

(** [s.split(sep)] for a one-character separator: every occurrence of the
    separator ends a segment, so the result is never empty and empty
    segments are kept. *)
Fixpoint split (sep : ascii) (s : string) : list string :=
  match s with
  | EmptyString => [EmptyString]
  | String c r =>
      if Ascii.eqb c sep then EmptyString :: split sep r
      else match split sep r with
           | [] => [String c EmptyString]
           | seg :: rest => String c seg :: rest
           end
  end.

Definition lower_char (c : ascii) : ascii :=
  let n := nat_of_ascii c in
  if (65 <=? n)%nat && (n <=? 90)%nat then ascii_of_nat (n + 32) else c.

(** [s.lower()] on a byte string. *)
Fixpoint lower (s : string) : string :=
  match s with
  | EmptyString => EmptyString
  | String c r => String (lower_char c) (lower r)
  end.

Definition hex_digit (n : nat) : ascii :=
  if (n <? 10)%nat then ascii_of_nat (48 + n) else ascii_of_nat (87 + n).

(** One character of [repr(s)], inside the quote character [q]. *)
Definition repr_char (q c : ascii) : string :=
  let n := nat_of_ascii c in
  if Ascii.eqb c q || Ascii.eqb c backslash then String backslash (String c EmptyString)
  else if (n =? 9)%nat then String backslash (String "t" EmptyString)
  else if (n =? 10)%nat then String backslash (String "n" EmptyString)
  else if (n =? 13)%nat then String backslash (String "r" EmptyString)
  else if (n <? 32)%nat || (127 <=? n)%nat then
    String backslash (String "x"
      (String (hex_digit (n / 16)) (String (hex_digit (n mod 16)) EmptyString)))
  else String c EmptyString.

Fixpoint repr_body (q : ascii) (s : string) : string :=
  match s with
  | EmptyString => EmptyString
  | String c r => append (repr_char q c) (repr_body q r)
  end.

(** [repr(s)] of a byte string: single quotes, unless the string holds a
    single quote and no double quote. *)
Definition repr (s : string) : string :=
  let q := if contains squote s && negb (contains dquote s) then dquote else squote in
  String q (append (repr_body q s) (String q EmptyString)).

(** [sep.join(l)]. *)
Fixpoint join (sep : string) (l : list string) : string :=
  match l with
  | [] => EmptyString
  | [s] => s
  | s :: l' => append s (append sep (join sep l'))
  end.

End Str.

Open Scope string_scope.

(** ** Python values *)

(** The values an attribute or a keyword argument holds in this module. *)
Inductive pyval : Type :=
| PNone
| PBool (b : bool)
| PInt (z : Z)
| PStr (s : string)
| PList (l : list pyval).

(** [repr(v)].  A list prints its items with [repr], separated by a comma
    and a space, between brackets. *)
Fixpoint py_repr (v : pyval) : string :=
  match v with
  | PNone => "None"
  | PBool true => "True"
  | PBool false => "False"
  | PInt z => NilZero.string_of_int (Z.to_int z)
  | PStr s => Str.repr s
  | PList l => append "[" (append (Str.join ", " (map py_repr l)) "]")
  end.

(** [str(v)]: a string is itself, everything else prints as its [repr]. *)
Definition py_str (v : pyval) : string :=
  match v with
  | PStr s => s
  | _ => py_repr v
  end.

(** ['%s(%s)' % (x, y)]. *)
Definition format_call (x y : pyval) : string :=
  append (py_str x) (append "(" (append (py_str y) ")")).

(** A keyword dictionary, in the order the keywords were written. *)
Definition dict : Type := list (string * pyval).

Definition keys (d : dict) : list string := map fst d.

Definition has_key (k : string) (d : dict) : bool :=
  existsb (String.eqb k) (keys d).

Fixpoint get (k : string) (d : dict) : option pyval :=
  match d with
  | [] => None
  | (k', v) :: d' => if String.eqb k k' then Some v else get k d'
  end.

Definition remove (k : string) (d : dict) : dict :=
  filter (fun kv => negb (String.eqb k (fst kv))) d.

(** ** Activation classes and instances *)

(** The classes of the module: [Activation] itself and its subclasses. *)
Inductive variant : Type :=
| ActivationBase
| Linear
| Tanh
| Logistic
| Softmax
| Softplus
| Relu
| RectMax
| TruncatedRelu
| NormMean
| NormMax
| NormStd
| NormZ.

Definition variant_eq_dec (a b : variant) : {a = b} + {a <> b}.
Proof. decide equality. Defined.

(** An instance of [Activation] or of one of its subclasses: its class and
    the three attributes [__init__] sets. *)
Record Activation : Type := mkActivation {
  cls : variant;
  name : pyval;
  kwargs : dict;
  params : list pyval
}.

(** [Activation.__init__(self, name, **kwargs)] called with keyword
    arguments only, as the registry does.  Python binds the keyword [name]
    to the parameter of that name and collects the others in [kwargs]; a
    keyword called [self] collides with the instance, and a missing [name]
    is a missing argument. *)
Definition Activation_init (c : variant) (kw : dict) : result Activation :=
  if has_key "self" kw then Raise TypeError
  else match get "name" kw with
       | None => Raise TypeError
       | Some n =>
           Ok {| cls := c; name := n; kwargs := remove "name" kw; params := [] |}
       end.

(** ** The registry *)

Module Registrar.

(** Modelled from the spec: [util.Registrar], the metaclass behind
    [Activation], is not part of the sources.  Each subclass registers under
    its class name in lower case and under every entry of its
    [__extra_registration_keys__]; the table lists them in the order the
    classes are declared. *)
Definition registry : list (string * variant) :=
  [ ("linear", Linear);
    ("tanh", Tanh);
    ("logistic", Logistic); ("sigmoid", Logistic);
    ("softmax", Softmax);
    ("softplus", Softplus);
    ("relu", Relu); ("rect:min", Relu);
    ("rectmax", RectMax); ("rect:max", RectMax);
    ("truncatedrelu", TruncatedRelu); ("trelu", TruncatedRelu);
    ("rect:minmax", TruncatedRelu);
    ("normmean", NormMean); ("norm:mean", NormMean);
    ("normmax", NormMax); ("norm:max", NormMax);
    ("normstd", NormStd); ("norm:std", NormStd);
    ("normz", NormZ); ("norm:z", NormZ) ].

Fixpoint assoc (k : string) (t : list (string * variant)) : option variant :=
  match t with
  | [] => None
  | (k', c) :: t' => if String.eqb k k' then Some c else assoc k t'
  end.

(** Modelled from the spec: the registry's [lookup(key)], which is
    case-insensitive. *)
Definition lookup (key : string) : option variant :=
  assoc (Str.lower key) registry.

(** Modelled from the spec: whether [lookup(key)] finds a class. *)
Definition is_registered (key : string) : bool :=
  match lookup key with Some _ => true | None => false end.

(** Modelled from the spec: the registry's [build(key, **kwargs)], the class
    method [Activation.build].  It fails with [UnknownActivationError] when
    the key is absent and otherwise instantiates the class found with the
    keyword arguments it was given. *)
Definition build (key : string) (kw : dict) : result Activation :=
  match lookup key with
  | None => Raise UnknownActivationError
  | Some c => Activation_init c kw
  end.

End Registrar.

(** ** What [build] returns *)

(** Either an instance, or the function object [compose] makes: the closure
    [lambda z: b(a(z))] over [a] and [b], with the one attribute [compose]
    sets on it. *)
Inductive callable : Type :=
| Instance (a : Activation)
| Lambda (a b : callable) (lambda_name : pyval).

(** The attributes [__init__] gives to an instance. *)
Inductive attribute : Type := attr_name | attr_kwargs | attr_params.

(** A keyword dictionary as a Python value is not needed anywhere; reading
    an attribute returns it as it is stored. *)
Inductive attr_value : Type :=
| AName (v : pyval)
| AKwargs (d : dict)
| AParams (l : list pyval).

(** [getattr(c, attr)].  A function object has only the attributes that were
    assigned on it. *)
Definition getattr (c : callable) (attr : attribute) : result attr_value :=
  match c, attr with
  | Instance a, attr_name => Ok (AName (name a))
  | Instance a, attr_kwargs => Ok (AKwargs (kwargs a))
  | Instance a, attr_params => Ok (AParams (params a))
  | Lambda _ _ n, attr_name => Ok (AName n)
  | Lambda _ _ _, _ => Raise AttributeError
  end.

(** [c.name], which exists on both kinds of result. *)
Definition name_of (c : callable) : pyval :=
  match c with
  | Instance a => name a
  | Lambda _ _ n => n
  end.

(** The local function [compose] of [build]. *)
Definition compose (a b : callable) : callable :=
  Lambda a b (PList [PStr (format_call (name_of b) (name_of a))]).

(** [functools.reduce(f, items)] without an initial value.  The items come
    from a generator: each one is the outcome of evaluating its expression
    when [reduce] asks for it, so the first failure, in order, ends the
    fold. *)
Fixpoint reduce_from {A : Type} (f : A -> A -> A) (acc : A)
    (items : list (result A)) : result A :=
  match items with
  | [] => Ok acc
  | r :: rest => b <- r ;; reduce_from f (f acc b) rest
  end.

Definition reduce {A : Type} (f : A -> A -> A) (items : list (result A)) : result A :=
  match items with
  | [] => Raise TypeError
  | r :: rest => a <- r ;; reduce_from f a rest
  end.

(** ** The factory *)

(** What [build] accepts as its first argument: an instance, or a name. *)
Inductive spec : Type :=
| SInstance (a : Activation)
| SName (s : string).

Definition spec_size (sp : spec) : nat :=
  match sp with
  | SInstance _ => 0
  | SName s => String.length s
  end.

(** [map] over a list with a function that may use the membership of its
    argument; it is how the generator of [build] calls [build] again. *)
Fixpoint map_in {A B : Type} (l : list A) : (forall x, In x l -> B) -> list B :=
  match l with
  | [] => fun _ => []
  | a :: l' => fun f =>
      f a (or_introl eq_refl) :: map_in l' (fun x H => f x (or_intror H))
  end.

(** A segment is never longer than the string it was cut from, and it is
    shorter as soon as the string holds a separator. *)
Lemma split_length_le (sep : ascii) (s n : string) :
  In n (Str.split sep s) -> String.length n <= String.length s.
Proof.
  revert n; induction s as [|c r IH]; simpl; intros n Hin.
  - destruct Hin as [<-|[]]; simpl; lia.
  - destruct (Ascii.eqb c sep).
    + destruct Hin as [<-|Hin]; simpl; [lia|].
      specialize (IH _ Hin); lia.
    + destruct (Str.split sep r) as [|seg rest].
      * destruct Hin as [<-|[]]; simpl; lia.
      * destruct Hin as [<-|Hin]; simpl.
        -- specialize (IH seg (or_introl eq_refl)); lia.
        -- specialize (IH n (or_intror Hin)); lia.
Qed.

Lemma split_length_lt (sep : ascii) (s n : string) :
  Str.contains sep s = true ->
  In n (Str.split sep s) -> String.length n < String.length s.
Proof.
  revert n; induction s as [|c r IH]; simpl; intros n Hc Hin; [discriminate|].
  destruct (Ascii.eqb c sep); simpl in Hc.
  - destruct Hin as [<-|Hin]; simpl; [lia|].
    apply split_length_le in Hin; lia.
  - destruct (Str.split sep r) as [|seg rest].
    + specialize (IH EmptyString Hc); simpl in IH.
      destruct Hin as [<-|[]]; simpl. destruct r; simpl in *; [discriminate|lia].
    + destruct Hin as [<-|Hin]; simpl.
      * specialize (IH seg Hc (or_introl eq_refl)); lia.
      * specialize (IH n Hc (or_intror Hin)); lia.
Qed.

(** [build(name, **kwargs)].

    - An instance is returned as it is.
    - A name that holds a ['+'] is split, [build] is called on every
      segment with no keyword argument, and the results are folded with
      [compose] from the left.
    - Any other name goes to [Activation.build(name, name=name, **kwargs)];
      a keyword written twice in a call is a [TypeError]. *)
Equations? build (nm : spec) (kw : dict) : result callable
  by wf (spec_size nm) lt :=
build (SInstance a) kw := Ok (Instance a);
build (SName s) kw with inspect (Str.contains "+"%char s) := {
  | exist _ true Hplus :=
      reduce compose
        (map_in (Str.split "+"%char s) (fun n Hin => build (SName n) []));
  | exist _ false _ :=
      if has_key "name" kw then Raise TypeError
      else a <- Registrar.build s (("name", PStr s) :: kw) ;; Ok (Instance a) }.
Proof.
  simpl. now apply split_length_lt with (sep := "+"%char).
Qed.

(** ** Tensors *)

(** The part of [theano.tensor] the activations use, in its exact reading:
    the elements are real numbers.  A tensor is its shape and its elements
    in row-major order; the last axis is the one the reductions run along,
    so the buffer of a tensor with at least one axis is a sequence of
    rows. *)
Module TT.

Record tensor : Type := mkTensor {
  shape : list nat;
  data : list R
}.

Definition size (sh : list nat) : nat := fold_right Nat.mul 1 sh.

(** The buffer holds exactly the elements the shape announces. *)
Definition well_formed (x : tensor) : Prop :=
  List.length (data x) = size (shape x).

Definition leading (sh : list nat) : list nat := removelast sh.

Definition last_axis (sh : list nat) : nat := last sh 1.

(** The shape a reduction along the last axis leaves with [keepdims=True]. *)
Definition keepdims (sh : list nat) : list nat := (leading sh ++ [1])%list.

Fixpoint map2 {A B C : Type} (f : A -> B -> C) (l1 : list A) (l2 : list B) : list C :=
  match l1, l2 with
  | a :: l1', b :: l2' => f a b :: map2 f l1' l2'
  | _, _ => []
  end.

(** [k] consecutive blocks of [n] elements. *)
Fixpoint chunks (k n : nat) (l : list R) : list (list R) :=
  match k with
  | 0 => []
  | S k' => firstn n l :: chunks k' n (skipn n l)
  end.

Definition rows (x : tensor) : list (list R) :=
  chunks (size (leading (shape x))) (last_axis (shape x)) (data x).

(** An elementwise function, and an operator with a Python number on one
    side, apply to every element. *)
Definition elemwise (f : R -> R) (x : tensor) : tensor :=
  mkTensor (shape x) (map f (data x)).

(** An operator between two tensors.  Equal shapes combine element by
    element.  Otherwise the operands must agree on their leading axes and
    one of them must have a last axis of length one, which is repeated along
    the last axis of the other; anything else is a shape mismatch. *)
Definition binop (f : R -> R -> R) (x y : tensor) : result tensor :=
  if list_eq_dec Nat.eq_dec (shape x) (shape y) then
    Ok (mkTensor (shape x) (map2 f (data x) (data y)))
  else
    match shape x, shape y with
    | _ :: _, _ :: _ =>
        if list_eq_dec Nat.eq_dec (leading (shape x)) (leading (shape y)) then
          if (last_axis (shape y) =? 1)%nat then
            Ok (mkTensor (shape x)
                  (List.concat (map2 (fun r v => map (fun e => f e v) r) (rows x) (data y))))
          else if (last_axis (shape x) =? 1)%nat then
            Ok (mkTensor (shape y)
                  (List.concat (map2 (fun v r => map (f v) r) (data x) (rows y))))
          else Raise ValueError
        else Raise ValueError
    | _, _ => Raise ValueError
    end.

Definition add : tensor -> tensor -> result tensor := binop Rplus.
Definition sub : tensor -> tensor -> result tensor := binop Rminus.
Definition div : tensor -> tensor -> result tensor := binop Rdiv.

(** A reduction along [axis=-1] with [keepdims=True]: one value per row.  A
    tensor without axes has no last axis. *)
Definition reduce_last (f : list R -> result R) (x : tensor) : result tensor :=
  match shape x with
  | [] => Raise ValueError
  | _ :: _ => vals <- mapM f (rows x) ;; Ok (mkTensor (keepdims (shape x)) vals)
  end.

Definition row_sum (r : list R) : R := fold_right Rplus 0%R r.

Definition row_mean (r : list R) : R := (row_sum r / INR (List.length r))%R.

(** The maximum has no value on an empty row. *)
Definition row_max (r : list R) : result R :=
  match r with
  | [] => Raise ValueError
  | v :: r' => Ok (fold_left Rmax r' v)
  end.

(** The standard deviation is the root of the mean squared distance to the
    mean. *)
Definition row_std (r : list R) : R :=
  sqrt (row_mean (map (fun v => ((v - row_mean r) * (v - row_mean r))%R) r)).

Definition max_last : tensor -> result tensor := reduce_last row_max.
Definition sum_last : tensor -> result tensor := reduce_last (fun r => Ok (row_sum r)).
Definition mean_last : tensor -> result tensor := reduce_last (fun r => Ok (row_mean r)).
Definition std_last : tensor -> result tensor := reduce_last (fun r => Ok (row_std r)).

Definition abs : tensor -> tensor := elemwise Rabs.
Definition exp : tensor -> tensor := elemwise Rtrigo_def.exp.
Definition tanh : tensor -> tensor := elemwise Rtrigo_def.tanh.

(** [TT.nnet.sigmoid] and [TT.nnet.softplus]. *)
Definition sigmoid : tensor -> tensor :=
  elemwise (fun v => (1 / (1 + Rtrigo_def.exp (- v)))%R).
Definition softplus : tensor -> tensor :=
  elemwise (fun v => ln (1 + Rtrigo_def.exp v)).

(** *** Vocabulary of the properties *)

(** The value of [row_max] on a row that has one. *)
Definition row_max_val (r : list R) : R := fold_left Rmax (tl r) (hd 0%R r).

(** What a reduction with [keepdims=True] of [x] looks like: the leading
    axes of [x], a last axis of length one, one value per row. *)
Definition kept (x m : tensor) : Prop :=
  shape m = keepdims (shape x) /\
  List.length (data m) = size (leading (shape x)).

(** The tensor whose rows are the images of the rows of [x]. *)
Definition rowwise (phi : list R -> list R) (x : tensor) : tensor :=
  mkTensor (shape x) (List.concat (map phi (rows x))).

(** A tensor the reductions accept: its buffer fits its shape, it has a
    last axis, and that axis is not empty. *)
Definition reducible (x : tensor) : Prop :=
  well_formed x /\ shape x <> [] /\ last_axis (shape x) <> 0.

End TT.

(** ** float64 tensors *)

(** Tensors of [dtype] float64, the default [floatX]: the same shape and
    buffer, with IEEE 754 binary64 elements and their rounded operations. *)
Module F64.

Import PrimFloat.

Record tensor : Type := mkTensor {
  shape : list nat;
  data : list float
}.

Fixpoint chunks (k n : nat) (l : list float) : list (list float) :=
  match k with
  | 0 => []
  | S k' => firstn n l :: chunks k' n (skipn n l)
  end.

Definition rows (x : tensor) : list (list float) :=
  chunks (TT.size (TT.leading (shape x))) (TT.last_axis (shape x)) (data x).

Definition elemwise (f : float -> float) (x : tensor) : tensor :=
  mkTensor (shape x) (map f (data x)).

(** An operator between two tensors, with the broadcasting of [TT.binop]. *)
Definition binop (f : float -> float -> float) (x y : tensor) : result tensor :=
  if list_eq_dec Nat.eq_dec (shape x) (shape y) then
    Ok (mkTensor (shape x) (TT.map2 f (data x) (data y)))
  else
    match shape x, shape y with
    | _ :: _, _ :: _ =>
        if list_eq_dec Nat.eq_dec (TT.leading (shape x)) (TT.leading (shape y)) then
          if (TT.last_axis (shape y) =? 1)%nat then
            Ok (mkTensor (shape x)
                  (List.concat
                     (TT.map2 (fun r v => map (fun e => f e v) r) (rows x) (data y))))
          else if (TT.last_axis (shape x) =? 1)%nat then
            Ok (mkTensor (shape y)
                  (List.concat
                     (TT.map2 (fun v r => map (f v) r) (data x) (rows y))))
          else Raise ValueError
        else Raise ValueError
    | _, _ => Raise ValueError
    end.

Definition tensor_add : tensor -> tensor -> result tensor := binop add.
Definition tensor_sub : tensor -> tensor -> result tensor := binop sub.
Definition tensor_abs : tensor -> tensor := elemwise abs.

(** [(x + abs(x)) / 2] *)
Definition Relu_call (x : tensor) : result tensor :=
  s <- tensor_add x (tensor_abs x) ;;
  Ok (elemwise (fun v => div v 2%float) s).

(** [(1 + abs(x) - abs(x - 1)) / 2] *)
Definition TruncatedRelu_call (x : tensor) : result tensor :=
  d <- tensor_sub (elemwise (fun v => add 1%float v) (tensor_abs x))
                  (tensor_abs (elemwise (fun v => sub v 1%float) x)) ;;
  Ok (elemwise (fun v => div v 2%float) d).

(** *** Vocabulary of the properties *)





End F64.

(** ** The activations *)

(** [TT.cast(1e-6, FLOAT)], read as the exact [1/1000000]. *)
Definition epsilon : R := (1 / 1000000)%R.

Definition Linear_call (x : TT.tensor) : result TT.tensor := Ok x.

Definition Tanh_call (x : TT.tensor) : result TT.tensor := Ok (TT.tanh x).

Definition Logistic_call (x : TT.tensor) : result TT.tensor := Ok (TT.sigmoid x).

Definition Softmax_call (x : TT.tensor) : result TT.tensor :=
  m <- TT.max_last x ;;
  d <- TT.sub x m ;;
  let z := TT.exp d in
  s <- TT.sum_last z ;;
  TT.div z s.

Definition Softplus_call (x : TT.tensor) : result TT.tensor := Ok (TT.softplus x).

(** [(x + abs(x)) / 2] *)
Definition Relu_call (x : TT.tensor) : result TT.tensor :=
  s <- TT.add x (TT.abs x) ;;
  Ok (TT.elemwise (fun v => (v / 2)%R) s).

(** [(1 + x - abs(x - 1)) / 2] *)
Definition RectMax_call (x : TT.tensor) : result TT.tensor :=
  d <- TT.sub (TT.elemwise (fun v => (1 + v)%R) x)
              (TT.abs (TT.elemwise (fun v => (v - 1)%R) x)) ;;
  Ok (TT.elemwise (fun v => (v / 2)%R) d).

(** [(1 + abs(x) - abs(x - 1)) / 2] *)
Definition TruncatedRelu_call (x : TT.tensor) : result TT.tensor :=
  d <- TT.sub (TT.elemwise (fun v => (1 + v)%R) (TT.abs x))
              (TT.abs (TT.elemwise (fun v => (v - 1)%R) x)) ;;
  Ok (TT.elemwise (fun v => (v / 2)%R) d).

Definition NormMean_call (x : TT.tensor) : result TT.tensor :=
  m <- TT.mean_last x ;;
  TT.sub x m.

Definition NormMax_call (x : TT.tensor) : result TT.tensor :=
  s <- TT.max_last (TT.abs x) ;;
  TT.div x (TT.elemwise (fun v => (v + epsilon)%R) s).

Definition NormStd_call (x : TT.tensor) : result TT.tensor :=
  s <- TT.std_last x ;;
  TT.div x (TT.elemwise (fun v => (v + epsilon)%R) s).

Definition NormZ_call (x : TT.tensor) : result TT.tensor :=
  m <- TT.mean_last x ;;
  c <- TT.sub x m ;;
  s <- TT.std_last x ;;
  TT.div c (TT.elemwise (fun v => (v + epsilon)%R) s).

(** Softmax on one row, in closed form: the exponentials of the distances
    to the row's maximum, over their sum. *)
Definition softmax_row (r : list R) : list R :=
  let z := map (fun v => Rtrigo_def.exp (v - TT.row_max_val r)) r in
  map (fun e => (e / TT.row_sum z)%R) z.

(** [a(x)] for an instance [a]: the [__call__] of its class. *)
Definition Activation_call (a : Activation) (x : TT.tensor) : result TT.tensor :=
  match cls a with
  | ActivationBase => Raise NotImplementedError
  | Linear => Linear_call x
  | Tanh => Tanh_call x
  | Logistic => Logistic_call x
  | Softmax => Softmax_call x
  | Softplus => Softplus_call x
  | Relu => Relu_call x
  | RectMax => RectMax_call x
  | TruncatedRelu => TruncatedRelu_call x
  | NormMean => NormMean_call x
  | NormMax => NormMax_call x
  | NormStd => NormStd_call x
  | NormZ => NormZ_call x
  end.

(** [c(x)] for anything [build] returns. *)
Fixpoint call (c : callable) (x : TT.tensor) : result TT.tensor :=
  match c with
  | Instance a => Activation_call a x
  | Lambda a b _ => y <- call a x ;; call b y
  end.

(** The instances a result is made of, in the order they are applied. *)
Fixpoint instances (c : callable) : list Activation :=
  match c with
  | Instance a => [a]
  | Lambda a b _ => (instances a ++ instances b)%list
  end.

(** The instance a segment stands for: its class is the one the registry
    holds for it, its name is the segment as written. *)
Definition stands_for (n : string) (a : Activation) : Prop :=
  Registrar.lookup n = Some (cls a) /\ name a = PStr n /\
  kwargs a = [] /\ params a = [].

(** Applying instances one after the other, each to what the one before
    returned. *)
Fixpoint run (l : list Activation) (x : TT.tensor) : result TT.tensor :=
  match l with
  | [] => Ok x
  | a :: l' => y <- Activation_call a x ;; run l' y
  end.

(** * Properties *)

(** ** The result monad *)

Lemma bind_assoc {A B C : Type} (r : result A) (f : A -> result B) (g : B -> result C) :
  (y <- (x <- r ;; f x) ;; g y) = (x <- r ;; y <- f x ;; g y).
Proof. destruct r; reflexivity. Qed.

Lemma bind_ok_inv {A B : Type} (r : result A) (f : A -> result B) (b : B) :
  (x <- r ;; f x) = Ok b -> exists a, r = Ok a /\ f a = Ok b.
Proof. destruct r as [a|e]; simpl; [eauto|discriminate]. Qed.

(** ** Strings *)

Section SplitFacts.

Variable sep : ascii.

Lemma split_not_nil (s : string) : Str.split sep s <> [].
Proof.
  destruct s as [|c r]; simpl; [discriminate|].
  destruct (Ascii.eqb c sep); [discriminate|].
  destruct (Str.split sep r); discriminate.
Qed.

(** A string without separator is its own single segment. *)
Lemma split_no_sep (s : string) :
  Str.contains sep s = false -> Str.split sep s = [s].
Proof.
  induction s as [|c r IH]; simpl; [reflexivity|].
  destruct (Ascii.eqb c sep); simpl; [discriminate|].
  intros H. now rewrite (IH H).
Qed.

(** With a separator there are at least two segments. *)
Lemma split_sep_two (s : string) :
  Str.contains sep s = true ->
  exists a b rest, Str.split sep s = a :: b :: rest.
Proof.
  induction s as [|c r IH]; simpl; [discriminate|].
  destruct (Ascii.eqb c sep); simpl.
  - intros _. destruct (Str.split sep r) as [|b rest] eqn:E.
    + now apply split_not_nil in E.
    + eauto.
  - intros H. destruct (IH H) as (a & b & rest & ->). eauto.
Qed.

(** No segment holds the separator. *)
Lemma split_segment_no_sep (s n : string) :
  In n (Str.split sep s) -> Str.contains sep n = false.
Proof.
  revert n; induction s as [|c r IH]; simpl; intros n Hin.
  - destruct Hin as [<-|[]]. reflexivity.
  - destruct (Ascii.eqb c sep) eqn:Ec.
    + destruct Hin as [<-|Hin]; [reflexivity|]. now apply IH.
    + destruct (Str.split sep r) as [|seg rest].
      * destruct Hin as [<-|[]]. simpl. now rewrite Ec.
      * destruct Hin as [<-|Hin].
        -- simpl. rewrite Ec. simpl. apply IH. now left.
        -- apply IH. now right.
Qed.

(** Splitting [a + sep + b] gives [a], then the segments of [b]. *)
Lemma split_join (a b : string) :
  Str.contains sep a = false ->
  Str.split sep (a ++ String sep b) = a :: Str.split sep b.
Proof.
  induction a as [|c r IH]; simpl.
  - intros _. now rewrite Ascii.eqb_refl.
  - destruct (Ascii.eqb c sep); simpl; [discriminate|].
    intros H. now rewrite (IH H).
Qed.

Lemma contains_join (a b : string) :
  Str.contains sep (a ++ String sep b) = true.
Proof.
  induction a as [|c r IH]; simpl.
  - now rewrite Ascii.eqb_refl.
  - rewrite IH. apply orb_true_r.
Qed.

End SplitFacts.

(** Lower-casing neither creates nor removes a ['+']. *)
Lemma lower_char_plus (c : ascii) :
  Ascii.eqb (Str.lower_char c) "+"%char = Ascii.eqb c "+"%char.
Proof. destruct c as [[] [] [] [] [] [] [] []]; reflexivity. Qed.

Lemma contains_plus_lower (s : string) :
  Str.contains "+"%char (Str.lower s) = Str.contains "+"%char s.
Proof.
  induction s as [|c r IH]; simpl; [reflexivity|].
  now rewrite lower_char_plus, IH.
Qed.

(** ** Keyword dictionaries *)

Lemma remove_absent (k : string) (d : dict) :
  has_key k d = false -> remove k d = d.
Proof.
  unfold has_key, keys, remove.
  induction d as [|[k' v] d IH]; simpl; [reflexivity|].
  destruct (String.eqb k k'); simpl; [discriminate|].
  intros H. now rewrite (IH H).
Qed.

(** ** The registry *)

Lemma assoc_in (k : string) (t : list (string * variant)) (c : variant) :
  Registrar.assoc k t = Some c -> In (k, c) t.
Proof.
  induction t as [|[k' c'] t IH]; simpl; [discriminate|].
  destruct (String.eqb_spec k k') as [->|_].
  - intros [= ->]. now left.
  - intros H. right. now apply IH.
Qed.

(** No registered key holds a ['+'], and no registered class is the
    abstract [Activation]. *)
Lemma registry_entries :
  Forall (fun kc => Str.contains "+"%char (fst kc) = false /\ snd kc <> ActivationBase)
         Registrar.registry.
Proof. repeat constructor; simpl; discriminate. Qed.

Lemma lookup_no_plus (k : string) (c : variant) :
  Registrar.lookup k = Some c -> Str.contains "+"%char k = false.
Proof.
  unfold Registrar.lookup. intros H%assoc_in.
  pose proof registry_entries as F. rewrite Forall_forall in F.
  destruct (F _ H) as [Hc _]. simpl in Hc.
  now rewrite contains_plus_lower in Hc.
Qed.

Lemma lookup_not_base (k : string) (c : variant) :
  Registrar.lookup k = Some c -> c <> ActivationBase.
Proof.
  unfold Registrar.lookup. intros H%assoc_in.
  pose proof registry_entries as F. rewrite Forall_forall in F.
  now destruct (F _ H) as [_ Hc].
Qed.

Lemma is_registered_lookup (k : string) :
  Registrar.is_registered k = true <-> exists c, Registrar.lookup k = Some c.
Proof.
  unfold Registrar.is_registered. destruct (Registrar.lookup k) as [c|].
  - split; eauto.
  - split; [discriminate|]. intros [c [=]].
Qed.

Lemma not_registered_lookup (k : string) :
  Registrar.is_registered k = false <-> Registrar.lookup k = None.
Proof.
  unfold Registrar.is_registered. destruct (Registrar.lookup k) as [c|].
  - split; discriminate.
  - split; reflexivity.
Qed.

(** ** Unfolding [build] *)

Lemma map_in_map {A B : Type} (g : A -> B) (l : list A) :
  map_in l (fun x _ => g x) = map g l.
Proof.
  induction l as [|a l IH]; simpl; [reflexivity|].
  now rewrite IH.
Qed.

(** [build] satisfies the equation its definition is written as. *)
Lemma build_eq (nm : spec) (kw : dict) :
  build nm kw =
  match nm with
  | SInstance a => Ok (Instance a)
  | SName s =>
      if Str.contains "+"%char s then
        reduce compose (map (fun n => build (SName n) []) (Str.split "+"%char s))
      else if has_key "name" kw then Raise TypeError
      else a <- Registrar.build s (("name", PStr s) :: kw) ;; Ok (Instance a)
  end.
Proof.
  destruct nm as [a|s]; simp build; [reflexivity|].
  destruct (inspect (Str.contains "+"%char s)) as [[] H]; simp build; rewrite H.
  - now rewrite map_in_map.
  - reflexivity.
Qed.

(** ** One name *)

(** The instance a registered name builds. *)
Lemma build_name_ok (s : string) (kw : dict) (c : variant) :
  Registrar.lookup s = Some c ->
  has_key "name" kw = false ->
  has_key "self" kw = false ->
  build (SName s) kw =
  Ok (Instance {| cls := c; name := PStr s; kwargs := kw; params := [] |}).
Proof.
  intros Hl Hn Hs. rewrite build_eq.
  rewrite (lookup_no_plus _ Hl), Hn.
  unfold Registrar.build. rewrite Hl. unfold Activation_init.
  change (has_key "self" (("name", PStr s) :: kw)) with (has_key "self" kw).
  rewrite Hs. simpl. change (filter _ kw) with (remove "name" kw).
  now rewrite (remove_absent _ _ Hn).
Qed.

Lemma build_name_unknown (s : string) (kw : dict) :
  Str.contains "+"%char s = false ->
  Registrar.lookup s = None ->
  has_key "name" kw = false ->
  build (SName s) kw = Raise UnknownActivationError.
Proof.
  intros Hp Hl Hn. rewrite build_eq, Hp, Hn.
  unfold Registrar.build. now rewrite Hl.
Qed.

(** A segment builds an instance of its own, or is unknown. *)
Lemma build_segment (n : string) :
  Str.contains "+"%char n = false ->
  build (SName n) [] =
  match Registrar.lookup n with
  | Some c => Ok (Instance {| cls := c; name := PStr n; kwargs := []; params := [] |})
  | None => Raise UnknownActivationError
  end.
Proof.
  intros Hp. destruct (Registrar.lookup n) as [c|] eqn:Hl.
  - now apply build_name_ok.
  - now apply build_name_unknown.
Qed.

(** A name with a ['+'] never looks at the keyword arguments. *)
Lemma build_plus (s : string) (kw : dict) :
  Str.contains "+"%char s = true ->
  build (SName s) kw =
  reduce compose (map (fun n => build (SName n) []) (Str.split "+"%char s)).
Proof. intros Hp. now rewrite build_eq, Hp. Qed.

(** ** The fold *)

Section ReduceFacts.

Variable e : error.

(** When every item is a value or the failure [e], and [e] occurs, the fold
    fails with [e]. *)
Lemma reduce_from_raise (acc : callable) (items : list (result callable)) :
  Forall (fun r => r = Raise e \/ exists c, r = Ok c) items ->
  Exists (fun r => r = Raise e) items ->
  reduce_from compose acc items = Raise e.
Proof.
  intros F; revert acc; induction F as [|r items Hr F IH]; intros acc Hex.
  - inversion Hex.
  - simpl. destruct Hr as [->|[c ->]]; [reflexivity|]. simpl.
    apply IH. inversion Hex as [? ? H|? ? H]; subst; [discriminate|assumption].
Qed.

Lemma reduce_raise (items : list (result callable)) :
  Forall (fun r => r = Raise e \/ exists c, r = Ok c) items ->
  Exists (fun r => r = Raise e) items ->
  reduce compose items = Raise e.
Proof.
  intros F Hex. destruct F as [|r items Hr F]; [inversion Hex|].
  simpl. destruct Hr as [->|[c ->]]; [reflexivity|]. simpl.
  apply reduce_from_raise; [assumption|].
  inversion Hex as [? ? H|? ? H]; subst; [discriminate|assumption].
Qed.

End ReduceFacts.

(** Folding at least one more item onto a value gives a function object. *)
Lemma reduce_from_lambda (acc f : callable) (items : list (result callable)) :
  items <> [] ->
  reduce_from compose acc items = Ok f ->
  exists a b n, f = Lambda a b n.
Proof.
  revert acc; induction items as [|r items IH]; intros acc Hne H; [congruence|].
  simpl in H. apply bind_ok_inv in H as (b & -> & H).
  destruct items as [|r' items'].
  - simpl in H. injection H as <-. unfold compose. eauto.
  - apply (IH (compose acc b)); [discriminate|assumption].
Qed.

(** The fold adds no instance of its own. *)
Lemma reduce_from_instances (P : Activation -> Prop) (acc f : callable)
    (items : list (result callable)) :
  Forall (fun r => forall c, r = Ok c -> Forall P (instances c)) items ->
  Forall P (instances acc) ->
  reduce_from compose acc items = Ok f ->
  Forall P (instances f).
Proof.
  intros F; revert acc; induction F as [|r items Hr F IH]; intros acc Hacc H.
  - simpl in H. now injection H as <-.
  - simpl in H. apply bind_ok_inv in H as (b & -> & H).
    apply (IH (compose acc b)); [|assumption].
    simpl. apply Forall_app. split; [assumption|]. now apply Hr.
Qed.

(** What the generator of a ['+']-joined name yields. *)
Lemma segment_builds (s : string) :
  Forall (fun r => r = Raise UnknownActivationError \/ exists c, r = Ok c)
         (map (fun n => build (SName n) []) (Str.split "+"%char s)).
Proof.
  apply Forall_map, Forall_forall. intros n Hin.
  rewrite (build_segment _ (split_segment_no_sep _ _ _ Hin)).
  destruct (Registrar.lookup n); eauto.
Qed.

(** An unregistered segment makes [build] fail with the registry's error,
    whatever else the name holds. *)
Lemma build_unregistered_segment (s seg : string) (kw : dict) :
  has_key "name" kw = false \/ Str.contains "+"%char s = true ->
  In seg (Str.split "+"%char s) ->
  Registrar.lookup seg = None ->
  build (SName s) kw = Raise UnknownActivationError.
Proof.
  intros Hkw Hin Hl. destruct (Str.contains "+"%char s) eqn:Hp.
  - rewrite (build_plus _ _ Hp). apply reduce_raise; [apply segment_builds|].
    apply Exists_exists. exists (build (SName seg) []). split.
    + exact (in_map (fun n => build (SName n) []) _ _ Hin).
    + rewrite (build_segment _ (split_segment_no_sep _ _ _ Hin)). now rewrite Hl.
  - destruct Hkw as [Hkw|]; [|discriminate].
    rewrite (split_no_sep _ _ Hp) in Hin. destruct Hin as [<-|[]].
    now apply build_name_unknown.
Qed.

(** ** The factory: composition *)

(** C1. For registered names [a] and [b], the result of building
    ["a+b"] applied to [x] is what [b]'s activation returns on what [a]'s
    activation returns on [x]: the left operand is applied first.  For three
    names, ["a+b+c"] applies [a], then [b], then [c].  The keyword arguments
    of the outer call play no part. *)
Theorem build_plus_applies_left_first :
  (forall (a b : string) (kw : dict) (x : TT.tensor),
      Registrar.is_registered a = true ->
      Registrar.is_registered b = true ->
      exists fa fb fab,
        build (SName a) [] = Ok fa /\
        build (SName b) [] = Ok fb /\
        build (SName (a ++ "+" ++ b)) kw = Ok fab /\
        call fab x = (y <- call fa x ;; call fb y))
  /\
  (forall (a b c : string) (kw : dict) (x : TT.tensor),
      Registrar.is_registered a = true ->
      Registrar.is_registered b = true ->
      Registrar.is_registered c = true ->
      exists fa fb fc fabc,
        build (SName a) [] = Ok fa /\
        build (SName b) [] = Ok fb /\
        build (SName c) [] = Ok fc /\
        build (SName (a ++ "+" ++ b ++ "+" ++ c)) kw = Ok fabc /\
        call fabc x = (y <- call fa x ;; z <- call fb y ;; call fc z)).
Proof.
  split.
  - intros a b kw x [ca Ha]%is_registered_lookup [cb Hb]%is_registered_lookup.
    pose proof (lookup_no_plus _ Ha) as Pa.
    pose proof (lookup_no_plus _ Hb) as Pb.
    do 3 eexists. repeat split.
    + apply (build_name_ok _ [] Ha); reflexivity.
    + apply (build_name_ok _ [] Hb); reflexivity.
    + change ("+" ++ b) with (String "+"%char b).
      rewrite build_plus by apply contains_join.
      rewrite (split_join _ _ _ Pa), (split_no_sep _ _ Pb). simpl.
      rewrite (build_segment _ Pa), (build_segment _ Pb), Ha, Hb. reflexivity.
    + reflexivity.
  - intros a b c kw x [ca Ha]%is_registered_lookup [cb Hb]%is_registered_lookup
      [cc Hc]%is_registered_lookup.
    pose proof (lookup_no_plus _ Ha) as Pa.
    pose proof (lookup_no_plus _ Hb) as Pb.
    pose proof (lookup_no_plus _ Hc) as Pc.
    do 4 eexists. repeat split.
    + apply (build_name_ok _ [] Ha); reflexivity.
    + apply (build_name_ok _ [] Hb); reflexivity.
    + apply (build_name_ok _ [] Hc); reflexivity.
    + change ("+" ++ b ++ "+" ++ c) with (String "+"%char (b ++ String "+"%char c)).
      rewrite build_plus by apply contains_join.
      rewrite (split_join _ _ _ Pa), (split_join _ _ _ Pb), (split_no_sep _ _ Pc).
      simpl.
      rewrite (build_segment _ Pa), (build_segment _ Pb), (build_segment _ Pc).
      rewrite Ha, Hb, Hc. reflexivity.
    + simpl. apply bind_assoc.
Qed.

Lemma build_plus_applies_left_first_witness :
  let x := TT.mkTensor [3] [(-1)%R; 0%R; 2%R] in
  (exists fa fb fab,
      build (SName "relu") [] = Ok fa /\
      build (SName "tanh") [] = Ok fb /\
      build (SName "relu+tanh") [] = Ok fab /\
      call fab x = (y <- call fa x ;; call fb y))
  /\
  (exists fa fb fc fabc,
      build (SName "relu") [] = Ok fa /\
      build (SName "norm:z") [] = Ok fb /\
      build (SName "sigmoid") [] = Ok fc /\
      build (SName "relu+norm:z+sigmoid") [] = Ok fabc /\
      call fabc x = (y <- call fa x ;; z <- call fb y ;; call fc z)).
Proof.
  intros x. split.
  - apply (proj1 build_plus_applies_left_first "relu" "tanh" [] x); reflexivity.
  - apply (proj2 build_plus_applies_left_first "relu" "norm:z" "sigmoid" [] x);
      reflexivity.
Defined.

(** C2. The name [compose] gives to its result is not a string: it is a
    list of one string.  For two names the string inside is
    ["<b.name>(<a.name>)"]; with a third name the list of the first step is
    printed into the string, brackets and quotes included. *)
Theorem composed_name_is_a_list :
  (forall a b : callable, forall s : string, name_of (compose a b) <> PStr s) /\
  (exists f, build (SName "relu+tanh") [] = Ok f /\
             name_of f = PList [PStr "tanh(relu)"]) /\
  (exists f, build (SName "relu+tanh+linear") [] = Ok f /\
             name_of f = PList [PStr "linear(['tanh(relu)'])"]).
Proof.
  split; [|split].
  - intros a b s. simpl. discriminate.
  - eexists. split; [vm_compute; reflexivity|reflexivity].
  - eexists. split; [vm_compute; reflexivity|reflexivity].
Qed.

(** ** The factory: failures *)

(** C3, as the claim states it, fails: no path of [build] raises
    [EmptySegmentError]. *)
Lemma empty_segment_not_its_own_error :
  build (SName "relu++tanh") [] = Raise UnknownActivationError /\
  build (SName "relu++tanh") [] <> Raise EmptySegmentError.
Proof.
  assert (H : build (SName "relu++tanh") [] = Raise UnknownActivationError)
    by (vm_compute; reflexivity).
  split; [exact H|]. rewrite H. discriminate.
Qed.

(** C3, amended.  A ['+']-joined name with an empty segment fails, and the
    failure is the registry's: the empty string is looked up like any other
    segment and is not a registered key. *)
Theorem build_empty_segment (s : string) (kw : dict) :
  Str.contains "+"%char s = true ->
  In "" (Str.split "+"%char s) ->
  build (SName s) kw = Raise UnknownActivationError.
Proof.
  intros Hp Hin.
  apply (build_unregistered_segment s "" kw); [now right|assumption|reflexivity].
Qed.

Lemma build_empty_segment_witness :
  build (SName "relu++tanh") [("alpha", PInt 1)] = Raise UnknownActivationError.
Proof.
  apply (build_empty_segment "relu++tanh" [("alpha", PInt 1)]).
  - reflexivity.
  - simpl. right. left. reflexivity.
Defined.

(** C5. When some segment of a name, or the name itself when it has no
    ['+'], matches no registered key, [build] fails with
    [UnknownActivationError]: the failure of the lookup is the result of
    [build]. *)
Theorem build_unknown_name (s seg : string) (kw : dict) :
  has_key "name" kw = false ->
  In seg (Str.split "+"%char s) ->
  Registrar.is_registered seg = false ->
  build (SName s) kw = Raise UnknownActivationError.
Proof.
  intros Hkw Hin Hreg%not_registered_lookup.
  apply (build_unregistered_segment s seg kw); [now left|assumption|assumption].
Qed.

Lemma build_unknown_name_witness :
  build (SName "relu+not_a_real_activation+tanh") [] = Raise UnknownActivationError /\
  build (SName "not_a_real_activation") [] = Raise UnknownActivationError.
Proof.
  split.
  - apply (build_unknown_name "relu+not_a_real_activation+tanh"
             "not_a_real_activation" []).
    + reflexivity.
    + simpl. right. left. reflexivity.
    + reflexivity.
  - apply (build_unknown_name "not_a_real_activation" "not_a_real_activation" []).
    + reflexivity.
    + simpl. left. reflexivity.
    + reflexivity.
Defined.

(** ** The factory: instances and keyword arguments *)

(** C6. An instance given to [build] is what [build] returns, with its
    class and its three attributes as they were. *)
Theorem build_instance_identity (a : Activation) (kw : dict) :
  build (SInstance a) kw = Ok (Instance a).
Proof. now rewrite build_eq. Qed.

(** C4. The keyword arguments of [build] reach the constructor when the
    name is a single one: the instance stores them as its [kwargs].  When
    the name holds a ['+'] they change nothing, and every instance inside
    the result was constructed with no keyword argument. *)
Theorem kwargs_forwarded_only_to_single_name :
  (forall (s : string) (kw : dict) (c : variant),
      Registrar.lookup s = Some c ->
      has_key "name" kw = false ->
      has_key "self" kw = false ->
      build (SName s) kw =
      Ok (Instance {| cls := c; name := PStr s; kwargs := kw; params := [] |}))
  /\
  (forall (s : string) (kw : dict),
      Str.contains "+"%char s = true ->
      build (SName s) kw = build (SName s) [] /\
      forall f, build (SName s) kw = Ok f ->
                Forall (fun a => kwargs a = []) (instances f)).
Proof.
  split.
  - intros s kw c. apply build_name_ok.
  - intros s kw Hp. split.
    + now rewrite !build_plus.
    + intros f. rewrite (build_plus _ _ Hp).
      assert (F : Forall (fun r => forall c, r = Ok c ->
                            Forall (fun a => kwargs a = []) (instances c))
                    (map (fun n => build (SName n) []) (Str.split "+"%char s))).
      { apply Forall_map, Forall_forall. intros n Hin c.
        rewrite (build_segment _ (split_segment_no_sep _ _ _ Hin)).
        destruct (Registrar.lookup n); [|discriminate].
        intros [= <-]. simpl. now constructor. }
      destruct F as [|r items Hr F]; simpl; [discriminate|].
      intros (a & -> & H)%bind_ok_inv.
      eapply reduce_from_instances; [exact F|exact (Hr _ eq_refl)|exact H].
Qed.

Lemma kwargs_forwarded_only_to_single_name_witness :
  let kw := [("alpha", PInt 3)] in
  build (SName "relu") kw =
    Ok (Instance {| cls := Relu; name := PStr "relu"; kwargs := kw; params := [] |})
  /\ build (SName "relu+tanh") kw = build (SName "relu+tanh") []
  /\ exists f, build (SName "relu+tanh") kw = Ok f /\
               Forall (fun a => kwargs a = []) (instances f).
Proof.
  intros kw.
  destruct kwargs_forwarded_only_to_single_name as [H1 H2].
  split; [|split].
  - apply (H1 "relu" kw Relu); reflexivity.
  - apply (H2 "relu+tanh" kw). reflexivity.
  - eexists. split; [vm_compute; reflexivity|].
    apply (proj2 (H2 "relu+tanh" kw eq_refl)). vm_compute. reflexivity.
Defined.

(** C10. What a ['+']-joined name builds is a function object and not an
    instance: reading [params] or [kwargs] on it fails, while a single name
    builds an instance whose [params] is the empty list and whose [kwargs]
    can be read.  Keyword arguments given together with an instance are
    dropped: the instance comes back with the [kwargs] it had. *)
Theorem composite_is_bare_function :
  (forall (s : string) (kw : dict) (f : callable),
      Str.contains "+"%char s = true ->
      build (SName s) kw = Ok f ->
      (exists a b n, f = Lambda a b n) /\
      getattr f attr_params = Raise AttributeError /\
      getattr f attr_kwargs = Raise AttributeError)
  /\
  (forall (s : string) (kw : dict) (f : callable),
      Str.contains "+"%char s = false ->
      build (SName s) kw = Ok f ->
      getattr f attr_params = Ok (AParams []) /\
      exists d, getattr f attr_kwargs = Ok (AKwargs d))
  /\
  (forall (a : Activation) (kw : dict),
      build (SInstance a) kw = Ok (Instance a) /\
      getattr (Instance a) attr_kwargs = Ok (AKwargs (kwargs a))).
Proof.
  split; [|split].
  - intros s kw f Hp. rewrite (build_plus _ _ Hp).
    destruct (split_sep_two _ _ Hp) as (a & b & rest & ->).
    rewrite map_cons. unfold reduce.
    intros (fa & _ & H)%bind_ok_inv.
    assert (L : exists x y n, f = Lambda x y n).
    { eapply reduce_from_lambda; [|exact H]. simpl. discriminate. }
    destruct L as (x & y & n & ->). simpl. eauto 6.
  - intros s kw f Hp. rewrite build_eq, Hp.
    destruct (has_key "name" kw); [discriminate|].
    intros (a & Ha & [= <-])%bind_ok_inv. simpl.
    unfold Registrar.build in Ha. destruct (Registrar.lookup s); [|discriminate].
    unfold Activation_init in Ha.
    destruct (has_key "self" _); [discriminate|].
    destruct (get "name" _); [|discriminate].
    injection Ha as <-. simpl. eauto.
  - intros a kw. now rewrite build_eq.
Qed.

Lemma composite_is_bare_function_witness :
  (exists f, build (SName "relu+norm:z") [] = Ok f /\
             (exists a b n, f = Lambda a b n) /\
             getattr f attr_params = Raise AttributeError /\
             getattr f attr_kwargs = Raise AttributeError)
  /\
  (exists f, build (SName "relu") [] = Ok f /\
             getattr f attr_params = Ok (AParams []) /\
             exists d, getattr f attr_kwargs = Ok (AKwargs d)).
Proof.
  destruct composite_is_bare_function as (H1 & H2 & _).
  split.
  - eexists. split; [vm_compute; reflexivity|].
    apply (H1 "relu+norm:z" []); [reflexivity|vm_compute; reflexivity].
  - eexists. split; [vm_compute; reflexivity|].
    apply (H2 "relu" []); [reflexivity|vm_compute; reflexivity].
Defined.

(** ** Shapes and rows *)

Section ShapeFacts.

Import TT.

Lemma size_app (a b : list nat) : size (a ++ b)%list = size a * size b.
Proof.
  induction a as [|n a IH]; simpl; [lia|].
  fold (size (a ++ b)%list). fold (size a). rewrite IH. lia.
Qed.

(** A shape with at least one axis is its leading axes and its last one. *)
Lemma shape_leading_last (sh : list nat) :
  sh <> [] -> sh = (leading sh ++ [last_axis sh])%list.
Proof. intros H. now apply app_removelast_last. Qed.

Lemma size_leading_last (sh : list nat) :
  sh <> [] -> size sh = size (leading sh) * last_axis sh.
Proof.
  intros H. rewrite (shape_leading_last H) at 1.
  rewrite size_app. simpl. lia.
Qed.

Lemma leading_keepdims (sh : list nat) : leading (keepdims sh) = leading sh.
Proof. unfold keepdims, leading at 1. apply removelast_last. Qed.

Lemma last_axis_keepdims (sh : list nat) : last_axis (keepdims sh) = 1.
Proof. unfold keepdims, last_axis. apply last_last. Qed.

Lemma size_keepdims (sh : list nat) : size (keepdims sh) = size (leading sh).
Proof. unfold keepdims. rewrite size_app. simpl. lia. Qed.

Lemma keepdims_not_nil (sh : list nat) : keepdims sh <> [].
Proof. unfold keepdims. destruct (leading sh); discriminate. Qed.

Lemma chunks_length (k n : nat) (l : list R) : List.length (chunks k n l) = k.
Proof.
  revert l; induction k as [|k IH]; intros l; simpl; [reflexivity|].
  now rewrite IH.
Qed.

(** In a buffer of [k * n] elements every row has [n] of them, and the
    rows together are the buffer. *)
Lemma chunks_row_length (k n : nat) (l : list R) :
  List.length l = k * n ->
  Forall (fun r => List.length r = n) (chunks k n l).
Proof.
  revert l; induction k as [|k IH]; intros l H; simpl; constructor.
  - rewrite length_firstn. simpl in H. lia.
  - apply IH. rewrite length_skipn. simpl in H. lia.
Qed.

Lemma concat_chunks (k n : nat) (l : list R) :
  List.length l = k * n -> List.concat (chunks k n l) = l.
Proof.
  revert l; induction k as [|k IH]; intros l H; simpl.
  - simpl in H. now destruct l.
  - rewrite IH.
    + apply firstn_skipn.
    + rewrite length_skipn. simpl in H. lia.
Qed.

Lemma chunks_concat (n : nat) (rs : list (list R)) :
  Forall (fun r => List.length r = n) rs ->
  chunks (List.length rs) n (List.concat rs) = rs.
Proof.
  induction 1 as [|r rs Hr F IH]; simpl; [reflexivity|].
  subst n.
  rewrite firstn_app, firstn_all, Nat.sub_diag, firstn_O, app_nil_r.
  rewrite skipn_app, skipn_all, Nat.sub_diag. simpl. now rewrite IH.
Qed.

Lemma chunks_map (f : R -> R) (k n : nat) (l : list R) :
  chunks k n (map f l) = map (map f) (chunks k n l).
Proof.
  revert l; induction k as [|k IH]; intros l; simpl; [reflexivity|].
  now rewrite firstn_map, skipn_map, IH.
Qed.

(** Rows of one element. *)
Lemma chunks_one (l : list R) :
  chunks (List.length l) 1 l = map (fun v => [v]) l.
Proof.
  induction l as [|v l IH]; simpl; [reflexivity|]. now rewrite IH.
Qed.

Lemma map2_length {A B C : Type} (f : A -> B -> C) (l1 : list A) (l2 : list B) :
  List.length l1 = List.length l2 ->
  List.length (map2 f l1 l2) = List.length l1.
Proof.
  revert l2; induction l1 as [|a l1 IH]; intros [|b l2] H; simpl in *;
    try reflexivity; try discriminate.
  now rewrite IH by lia.
Qed.

Lemma map2_map (f : R -> R -> R) (g h : R -> R) (l : list R) :
  map2 f (map g l) (map h l) = map (fun v => f (g v) (h v)) l.
Proof.
  induction l as [|v l IH]; simpl; [reflexivity|]. now rewrite IH.
Qed.

Lemma map2_singletons (f : R -> R -> R) (l d : list R) :
  List.concat (map2 (fun r v => map (fun e => f e v) r) (map (fun v => [v]) l) d)
  = map2 f l d.
Proof.
  revert d; induction l as [|v l IH]; intros [|w d]; simpl; try reflexivity.
  now rewrite IH.
Qed.

(** Repeating one value per row keeps the rows as long as they were. *)
Lemma map2_rows_length (f : R -> R -> R) (n : nat) (rs : list (list R)) (d : list R) :
  Forall (fun r => List.length r = n) rs ->
  List.length rs = List.length d ->
  Forall (fun r => List.length r = n)
         (map2 (fun r v => map (fun e => f e v) r) rs d)
  /\ List.length (map2 (fun r v => map (fun e => f e v) r) rs d) = List.length rs.
Proof.
  intros F; revert d; induction F as [|r rs Hr F IH]; intros [|v d] H;
    simpl in *; try discriminate; [split; [constructor|reflexivity]|].
  destruct (IH d) as [IH1 IH2]; [lia|]. split.
  - constructor; [now rewrite length_map|assumption].
  - now rewrite IH2.
Qed.

Lemma concat_rows_length (n : nat) (rs : list (list R)) :
  Forall (fun r => List.length r = n) rs ->
  List.length (List.concat rs) = List.length rs * n.
Proof.
  induction 1 as [|r rs Hr F IH]; simpl; [reflexivity|].
  rewrite length_app, IH, Hr. reflexivity.
Qed.

End ShapeFacts.

(** ** Tensor operations *)

Section TensorFacts.

Import TT.

Lemma kept_well_formed (x m : tensor) : kept x m -> well_formed m.
Proof.
  intros [Hs Hd]. unfold well_formed. now rewrite Hs, size_keepdims.
Qed.

Lemma elemwise_shape (f : R -> R) (x : tensor) : shape (elemwise f x) = shape x.
Proof. reflexivity. Qed.

Lemma elemwise_well_formed (f : R -> R) (x : tensor) :
  well_formed x -> well_formed (elemwise f x).
Proof. unfold well_formed. simpl. now rewrite length_map. Qed.

Lemma elemwise_kept (f : R -> R) (x m : tensor) :
  kept x m -> kept x (elemwise f m).
Proof. intros [Hs Hd]. split; simpl; [assumption|now rewrite length_map]. Qed.

Lemma kept_same_shape (x y m : tensor) :
  shape y = shape x -> kept x m -> kept y m.
Proof. intros E [Hs Hd]. split; now rewrite E. Qed.

Lemma rows_elemwise (f : R -> R) (x : tensor) :
  rows (elemwise f x) = map (map f) (rows x).
Proof. unfold rows. simpl. apply chunks_map. Qed.

Section Rows.

Variable x : tensor.
Hypothesis Hwf : well_formed x.
Hypothesis Hsh : shape x <> [].

Lemma data_length_rows :
  List.length (data x) = size (leading (shape x)) * last_axis (shape x).
Proof. unfold well_formed in Hwf. now rewrite Hwf, (size_leading_last Hsh) at 1. Qed.

Lemma rows_length : List.length (rows x) = size (leading (shape x)).
Proof. apply chunks_length. Qed.

Lemma rows_row_length :
  Forall (fun r => List.length r = last_axis (shape x)) (rows x).
Proof. apply chunks_row_length, data_length_rows. Qed.

Lemma concat_rows : List.concat (rows x) = data x.
Proof. apply concat_chunks, data_length_rows. Qed.

(** A tensor put together from transformed rows of [x] has these rows. *)
Lemma rows_of_rows (rs : list (list R)) :
  Forall (fun r => List.length r = last_axis (shape x)) rs ->
  List.length rs = size (leading (shape x)) ->
  rows (mkTensor (shape x) (List.concat rs)) = rs.
Proof.
  intros F L. unfold rows. simpl. rewrite <- L. now apply chunks_concat.
Qed.

End Rows.

(** *** Reductions *)

Lemma mapM_ok_length {A B : Type} (f : A -> result B) (l : list A) (l' : list B) :
  mapM f l = Ok l' -> List.length l' = List.length l.
Proof.
  revert l'; induction l as [|a l IH]; simpl; intros l' H.
  - now injection H as <-.
  - apply bind_ok_inv in H as (b & _ & H).
    apply bind_ok_inv in H as (bs & Hbs & [= <-]).
    simpl. now rewrite (IH _ Hbs).
Qed.

Lemma mapM_ok {A B : Type} (f : A -> result B) (g : A -> B) (l : list A) :
  Forall (fun a => f a = Ok (g a)) l -> mapM f l = Ok (map g l).
Proof.
  induction 1 as [|a l Ha F IH]; simpl; [reflexivity|].
  now rewrite Ha, IH.
Qed.

Lemma row_max_ok (r : list R) : r <> [] -> row_max r = Ok (row_max_val r).
Proof. destruct r; [congruence|reflexivity]. Qed.

Lemma reduce_last_inv (f : list R -> result R) (x m : tensor) :
  reduce_last f x = Ok m -> shape x <> [] /\ kept x m.
Proof.
  unfold reduce_last. destruct (shape x) as [|n sh] eqn:E; [discriminate|].
  intros (vals & Hv & [= <-])%bind_ok_inv. split; [discriminate|].
  split; simpl; rewrite ?E; [reflexivity|].
  rewrite (mapM_ok_length _ _ Hv). unfold rows. now rewrite chunks_length, E.
Qed.

Lemma reduce_last_ok (f : list R -> result R) (g : list R -> R) (x : tensor) :
  shape x <> [] ->
  Forall (fun r => f r = Ok (g r)) (rows x) ->
  reduce_last f x = Ok (mkTensor (keepdims (shape x)) (map g (rows x))).
Proof.
  intros Hsh F. unfold reduce_last.
  destruct (shape x) as [|n sh] eqn:E; [congruence|].
  rewrite mapM_ok with (g := g) by exact F. simpl. now rewrite ?E.
Qed.

Lemma reducible_rows_not_nil (x : tensor) :
  reducible x -> Forall (fun r => r <> []) (rows x).
Proof.
  intros (Hwf & Hsh & Hn).
  eapply Forall_impl; [|apply (rows_row_length Hwf Hsh)].
  intros r Hr ->. simpl in Hr. congruence.
Qed.

Lemma max_last_ok (x : tensor) :
  reducible x ->
  max_last x = Ok (mkTensor (keepdims (shape x)) (map row_max_val (rows x))).
Proof.
  intros Hx. apply reduce_last_ok; [apply Hx|].
  eapply Forall_impl; [|apply (reducible_rows_not_nil Hx)].
  intros r. apply row_max_ok.
Qed.

Lemma reduce_last_pure (g : list R -> R) (x : tensor) :
  shape x <> [] ->
  reduce_last (fun r => Ok (g r)) x =
  Ok (mkTensor (keepdims (shape x)) (map g (rows x))).
Proof.
  intros Hsh. apply reduce_last_ok; [assumption|].
  apply Forall_forall. reflexivity.
Qed.

(** *** Operators *)

Lemma binop_same (f : R -> R -> R) (x y : tensor) :
  shape y = shape x ->
  binop f x y = Ok (mkTensor (shape x) (map2 f (data x) (data y))).
Proof.
  intros E. unfold binop.
  destruct (list_eq_dec Nat.eq_dec (shape x) (shape y)); [reflexivity|congruence].
Qed.

Lemma binop_same_well_formed (f : R -> R -> R) (x y : tensor) :
  shape y = shape x -> well_formed x -> well_formed y ->
  well_formed (mkTensor (shape x) (map2 f (data x) (data y))).
Proof.
  unfold well_formed. intros E Hx Hy. simpl.
  rewrite map2_length; [assumption|]. now rewrite Hx, Hy, E.
Qed.

(** An operator between [x] and a reduction of [x] repeats the value of
    each row along that row. *)
Lemma binop_kept (f : R -> R -> R) (x m : tensor) :
  well_formed x -> shape x <> [] -> kept x m ->
  binop f x m =
  Ok (mkTensor (shape x)
        (List.concat (map2 (fun r v => map (fun e => f e v) r) (rows x) (data m)))).
Proof.
  intros Hwf Hsh [Hs Hd]. unfold binop.
  destruct (list_eq_dec Nat.eq_dec (shape x) (shape m)) as [E|NE].
  - assert (H1 : last_axis (shape x) = 1)
      by (rewrite E, Hs; apply last_axis_keepdims).
    unfold rows. rewrite H1.
    pose proof (data_length_rows Hwf Hsh) as L. rewrite H1, Nat.mul_1_r in L.
    rewrite <- L, chunks_one, map2_singletons. reflexivity.
  - destruct (shape x) as [|n sh] eqn:Ex; [congruence|].
    destruct (shape m) as [|n' sh'] eqn:Em;
      [symmetry in Hs; now apply keepdims_not_nil in Hs|].
    rewrite Hs, leading_keepdims, last_axis_keepdims.
    destruct (list_eq_dec Nat.eq_dec (leading (n :: sh)) (leading (n :: sh)));
      [|congruence].
    simpl. unfold rows. now rewrite Ex.
Qed.

Lemma binop_kept_well_formed (f : R -> R -> R) (x m : tensor) :
  well_formed x -> shape x <> [] -> kept x m ->
  well_formed
    (mkTensor (shape x)
       (List.concat (map2 (fun r v => map (fun e => f e v) r) (rows x) (data m)))).
Proof.
  intros Hwf Hsh [Hs Hd]. unfold well_formed. simpl.
  destruct (@map2_rows_length f _ _ (data m) (rows_row_length Hwf Hsh)) as [F L].
  - now rewrite rows_length.
  - rewrite (concat_rows_length F), L, rows_length.
    symmetry. now apply size_leading_last.
Qed.

End TensorFacts.

(** ** Row by row *)

Section Rowwise.

Import TT.

Lemma map2_map_right {A B C : Type} (f : A -> B -> C) (h : A -> B) (l : list A) :
  map2 f l (map h l) = map (fun a => f a (h a)) l.
Proof.
  induction l as [|a l IH]; simpl; [reflexivity|]. now rewrite IH.
Qed.

Variable x : tensor.
Hypothesis Hwf : well_formed x.
Hypothesis Hsh : shape x <> [].

Lemma reduced_kept (g : list R -> R) :
  kept x (mkTensor (keepdims (shape x)) (map g (rows x))).
Proof.
  split; simpl; [reflexivity|]. now rewrite length_map, rows_length.
Qed.

(** An operator between [x] and a reduction of [x], row by row. *)
Lemma binop_reduced (f : R -> R -> R) (g : list R -> R) :
  binop f x (mkTensor (keepdims (shape x)) (map g (rows x))) =
  Ok (rowwise (fun r => map (fun e => f e (g r)) r) x).
Proof.
  rewrite (binop_kept f Hwf Hsh (reduced_kept g)). simpl.
  now rewrite map2_map_right.
Qed.

Section LengthPreserving.

Variable phi : list R -> list R.
Hypothesis Hphi : forall r, List.length (phi r) = List.length r.

Lemma rowwise_rows_length :
  Forall (fun r => List.length r = last_axis (shape x)) (map phi (rows x)).
Proof.
  apply Forall_map. eapply Forall_impl; [|apply (rows_row_length Hwf Hsh)].
  intros r Hr. simpl. now rewrite Hphi.
Qed.

Lemma rows_rowwise : rows (rowwise phi x) = map phi (rows x).
Proof.
  unfold rowwise. apply (rows_of_rows x).
  - apply rowwise_rows_length.
  - now rewrite length_map, rows_length.
Qed.

Lemma rowwise_well_formed : well_formed (rowwise phi x).
Proof.
  unfold well_formed, rowwise. simpl.
  rewrite (concat_rows_length rowwise_rows_length), length_map, rows_length.
  symmetry. now apply size_leading_last.
Qed.

End LengthPreserving.

Lemma elemwise_rowwise (f : R -> R) : elemwise f x = rowwise (map f) x.
Proof.
  unfold elemwise, rowwise. f_equal.
  now rewrite <- concat_map, (concat_rows Hwf Hsh).
Qed.

End Rowwise.

(** ** The rectifiers *)




Lemma Relu_call_eq (x : TT.tensor) :
  Relu_call x = Ok (TT.elemwise (fun v => ((v + Rabs v) / 2)%R) x).
Proof.
  unfold Relu_call, TT.add, TT.abs.
  rewrite binop_same by reflexivity. simpl.
  unfold TT.elemwise. simpl. now rewrite map2_map_right, map_map.
Qed.

Lemma TruncatedRelu_call_eq (x : TT.tensor) :
  TruncatedRelu_call x =
  Ok (TT.elemwise (fun v => ((1 + Rabs v - Rabs (v - 1)) / 2)%R) x).
Proof.
  unfold TruncatedRelu_call, TT.sub, TT.abs.
  rewrite binop_same by reflexivity. simpl.
  unfold TT.elemwise. simpl. rewrite !map_map, map2_map, map_map. reflexivity.
Qed.


Section Float64.

Import PrimFloat.
Local Open Scope float_scope.



End Float64.

(** ** Shapes through the activations *)

Section Shapes.

Import TT.

Lemma binop_same_inv (f : R -> R -> R) (x y z : tensor) :
  shape y = shape x -> well_formed x -> well_formed y ->
  binop f x y = Ok z -> shape z = shape x /\ well_formed z.
Proof.
  intros E Hx Hy. rewrite (binop_same f x y E). intros [= <-].
  split; [reflexivity|now apply binop_same_well_formed].
Qed.

Lemma binop_kept_inv (f : R -> R -> R) (x m y : tensor) :
  well_formed x -> shape x <> [] -> kept x m ->
  binop f x m = Ok y -> shape y = shape x /\ well_formed y.
Proof.
  intros Hwf Hsh K. rewrite (binop_kept f Hwf Hsh K). intros [= <-].
  split; [reflexivity|now apply binop_kept_well_formed].
Qed.

Lemma binop_kept_total (f : R -> R -> R) (x m : tensor) :
  well_formed x -> shape x <> [] -> kept x m ->
  exists y, binop f x m = Ok y.
Proof. intros Hwf Hsh K. rewrite (binop_kept f Hwf Hsh K). eauto. Qed.

Lemma pure_last_total (g : list R -> R) (x : tensor) :
  shape x <> [] ->
  exists m, reduce_last (fun r => Ok (g r)) x = Ok m /\ kept x m.
Proof.
  intros Hsh. rewrite (reduce_last_pure g x Hsh). eexists. split; [reflexivity|].
  split; simpl; [reflexivity|]. rewrite length_map. apply chunks_length.
Qed.

Lemma max_last_total (x : tensor) :
  reducible x -> exists m, max_last x = Ok m /\ kept x m.
Proof.
  intros Hx. rewrite (max_last_ok Hx). eexists. split; [reflexivity|].
  split; simpl; [reflexivity|]. rewrite length_map. apply chunks_length.
Qed.

Lemma reducible_elemwise (f : R -> R) (x : tensor) :
  reducible x -> reducible (elemwise f x).
Proof.
  intros (Hwf & Hsh & Hn). repeat split; try assumption.
  now apply elemwise_well_formed.
Qed.

(** Softmax normalises every row by its own maximum and its own sum, and
    returns a tensor of the shape it was given. *)
Lemma Softmax_call_rows (x : tensor) :
  reducible x ->
  exists y, Softmax_call x = Ok y /\
            shape y = shape x /\ well_formed y /\
            rows y = map softmax_row (rows x).
Proof.
  intros Hx. pose proof Hx as (Hwf & Hsh & Hn).
  unfold Softmax_call. rewrite (max_last_ok Hx). simpl.
  unfold sub. rewrite (binop_reduced Hwf Hsh). simpl.
  set (phi := fun r : list R => map (fun e => (e - row_max_val r)%R) r).
  assert (Hphi : forall r, List.length (phi r) = List.length r)
    by (intros r; apply length_map).
  pose proof (rowwise_well_formed Hwf Hsh phi Hphi) as Wd.
  pose proof (rows_rowwise Hwf Hsh phi Hphi) as Rd.
  set (z := exp (rowwise phi x)).
  assert (Wz : well_formed z) by now apply elemwise_well_formed.
  assert (Sz : shape z = shape x) by reflexivity.
  assert (Hshz : shape z <> []) by now rewrite Sz.
  unfold sum_last. rewrite (reduce_last_pure row_sum z Hshz). simpl.
  unfold div. rewrite (binop_reduced Wz Hshz).
  set (psi := fun r : list R => map (fun e => (e / row_sum r)%R) r).
  assert (Hpsi : forall r, List.length (psi r) = List.length r)
    by (intros r; apply length_map).
  eexists. split; [reflexivity|]. split; [reflexivity|]. split.
  - apply (rowwise_well_formed Wz Hshz psi Hpsi).
  - rewrite (rows_rowwise Wz Hshz psi Hpsi).
    unfold z, exp. rewrite rows_elemwise, Rd, !map_map.
    apply map_ext. intros r. unfold psi, phi, softmax_row.
    now rewrite !map_map.
Qed.

(** Whatever an instance returns has the shape of what it was given. *)
Lemma Activation_call_shape (a : Activation) (x y : tensor) :
  well_formed x -> Activation_call a x = Ok y ->
  shape y = shape x /\ well_formed y.
Proof.
  intros Hwf. unfold Activation_call. destruct (cls a).
  - discriminate.
  - intros [= <-]. now split.
  - intros [= <-]. split; [reflexivity|now apply elemwise_well_formed].
  - intros [= <-]. split; [reflexivity|now apply elemwise_well_formed].
  - unfold Softmax_call.
    intros (m & Hm & H)%bind_ok_inv.
    apply bind_ok_inv in H as (d & Hd & H). simpl in H.
    apply bind_ok_inv in H as (s & Hs & H).
    apply reduce_last_inv in Hm as [Hsh Km].
    destruct (binop_kept_inv _ Hwf Hsh Km Hd) as [Sd Wd].
    apply reduce_last_inv in Hs as [Hshz Ks].
    destruct (binop_kept_inv _ (elemwise_well_formed _ Wd) Hshz Ks H) as [Sy Wy].
    split; [now rewrite Sy|assumption].
  - intros [= <-]. split; [reflexivity|now apply elemwise_well_formed].
  - rewrite Relu_call_eq. intros [= <-].
    split; [reflexivity|now apply elemwise_well_formed].
  - unfold RectMax_call. intros (d & Hd & [= <-])%bind_ok_inv.
    apply binop_same_inv in Hd as [Sd Wd];
      [|reflexivity|now apply elemwise_well_formed
       |now apply elemwise_well_formed, elemwise_well_formed].
    split; [exact Sd|now apply elemwise_well_formed].
  - rewrite TruncatedRelu_call_eq. intros [= <-].
    split; [reflexivity|now apply elemwise_well_formed].
  - unfold NormMean_call. intros (m & Hm & H)%bind_ok_inv.
    apply reduce_last_inv in Hm as [Hsh Km].
    exact (binop_kept_inv _ Hwf Hsh Km H).
  - unfold NormMax_call. intros (s & Hs & H)%bind_ok_inv.
    apply reduce_last_inv in Hs as [Hsh Ks].
    refine (binop_kept_inv _ Hwf Hsh _ H).
    apply elemwise_kept. exact Ks.
  - unfold NormStd_call. intros (s & Hs & H)%bind_ok_inv.
    apply reduce_last_inv in Hs as [Hsh Ks].
    refine (binop_kept_inv _ Hwf Hsh _ H).
    apply elemwise_kept. exact Ks.
  - unfold NormZ_call. intros (m & Hm & H)%bind_ok_inv.
    apply bind_ok_inv in H as (c & Hc & H).
    apply bind_ok_inv in H as (s & Hs & H).
    apply reduce_last_inv in Hm as [Hsh Km].
    destruct (binop_kept_inv _ Hwf Hsh Km Hc) as [Sc Wc].
    apply reduce_last_inv in Hs as [_ Ks].
    assert (Hshc : shape c <> []) by now rewrite Sc.
    destruct (binop_kept_inv Rdiv Wc Hshc
                (elemwise_kept _ (kept_same_shape _ Sc Ks)) H) as [Sy Wy].
    split; [now rewrite Sy|assumption].
Qed.

(** Every class but the abstract one returns on a tensor the reductions
    accept. *)
Lemma Activation_call_total (a : Activation) (x : tensor) :
  reducible x -> cls a <> ActivationBase ->
  exists y, Activation_call a x = Ok y.
Proof.
  intros Hx Hc. pose proof Hx as (Hwf & Hsh & Hn).
  unfold Activation_call. destruct (cls a); try congruence;
    try (eexists; reflexivity).
  - destruct (Softmax_call_rows Hx) as (y & -> & _). eauto.
  - rewrite Relu_call_eq. eauto.
  - unfold RectMax_call, sub. rewrite binop_same by reflexivity. simpl. eauto.
  - rewrite TruncatedRelu_call_eq. eauto.
  - unfold NormMean_call.
    destruct (pure_last_total row_mean x Hsh) as (m & Hm & Km).
    unfold mean_last. rewrite Hm. simpl.
    now apply binop_kept_total.
  - unfold NormMax_call.
    destruct (max_last_total (reducible_elemwise Rabs Hx)) as (m & Hm & Km).
    unfold abs. rewrite Hm. simpl.
    apply binop_kept_total; [assumption|assumption|].
    apply elemwise_kept. exact Km.
  - unfold NormStd_call.
    destruct (pure_last_total row_std x Hsh) as (m & Hm & Km).
    unfold std_last. rewrite Hm. simpl.
    apply binop_kept_total; [assumption|assumption|].
    apply elemwise_kept. exact Km.
  - unfold NormZ_call.
    destruct (pure_last_total row_mean x Hsh) as (m & Hm & Km).
    unfold mean_last. rewrite Hm. simpl.
    destruct (binop_kept_total Rminus Hwf Hsh Km) as (c & Hc').
    unfold sub. rewrite Hc'. simpl.
    destruct (binop_kept_inv _ Hwf Hsh Km Hc') as [Sc Wc].
    destruct (pure_last_total row_std x Hsh) as (s & Hs & Ks).
    unfold std_last. rewrite Hs. simpl.
    apply binop_kept_total; [assumption|now rewrite Sc|].
    apply elemwise_kept. exact (kept_same_shape _ Sc Ks).
Qed.

Lemma call_shape (c : callable) (x y : tensor) :
  well_formed x -> call c x = Ok y -> shape y = shape x /\ well_formed y.
Proof.
  revert x y; induction c as [a|ca IHa cb IHb n]; intros x y Hwf; simpl.
  - now apply Activation_call_shape.
  - intros (u & Hu & H)%bind_ok_inv.
    destruct (IHa _ _ Hwf Hu) as [Su Wu].
    destruct (IHb _ _ Wu H) as [Sy Wy].
    split; [now rewrite Sy|assumption].
Qed.

Lemma call_total (c : callable) (x : tensor) :
  reducible x ->
  Forall (fun a => cls a <> ActivationBase) (instances c) ->
  exists y, call c x = Ok y.
Proof.
  revert x; induction c as [a|ca IHa cb IHb n]; intros x Hx F; simpl in *.
  - apply Activation_call_total; [assumption|]. now inversion F.
  - apply Forall_app in F as [Fa Fb].
    destruct (IHa _ Hx Fa) as (u & Hu). rewrite Hu. simpl.
    apply IHb; [|assumption].
    destruct Hx as (Hwf & Hsh & Hn).
    destruct (call_shape _ Hwf Hu) as [Su Wu].
    repeat split; [assumption|now rewrite Su|now rewrite Su].
Qed.

End Shapes.

(** C9. Softmax subtracts from every row its maximum, takes
    exponentials and divides by the sum of the row, each reduction keeping
    the reduced axis with length one; its output has the shape of its input.
    More generally whatever [build] returns, an instance or a composition,
    returns tensors of the shape it was given, and it does return on every
    tensor that has a last axis which is not empty. *)
Theorem activations_preserve_shape :
  (forall x : TT.tensor,
      TT.reducible x ->
      exists y, Softmax_call x = Ok y /\
                TT.shape y = TT.shape x /\ TT.well_formed y /\
                TT.rows y = map softmax_row (TT.rows x))
  /\
  (forall (c : callable) (x y : TT.tensor),
      TT.well_formed x -> call c x = Ok y ->
      TT.shape y = TT.shape x /\ TT.well_formed y)
  /\
  (forall (c : callable) (x : TT.tensor),
      TT.reducible x ->
      Forall (fun a => cls a <> ActivationBase) (instances c) ->
      exists y, call c x = Ok y /\
                TT.shape y = TT.shape x /\ TT.well_formed y).
Proof.
  split; [|split].
  - intros x. apply Softmax_call_rows.
  - intros c x y. apply call_shape.
  - intros c x Hx F. destruct (call_total c Hx F) as (y & Hy).
    exists y. split; [assumption|].
    apply (call_shape c (proj1 Hx) Hy).
Qed.

Lemma activations_preserve_shape_witness :
  let x := TT.mkTensor [2; 3] [1%R; 2%R; 3%R; (-1)%R; 0%R; 5%R] in
  (exists y, Softmax_call x = Ok y /\
             TT.shape y = [2; 3] /\ TT.well_formed y /\
             TT.rows y = map softmax_row (TT.rows x))
  /\
  (exists c y, build (SName "relu+softmax+norm:z") [] = Ok c /\
               call c x = Ok y /\ TT.shape y = [2; 3] /\ TT.well_formed y).
Proof.
  intros x.
  assert (Hx : TT.reducible x).
  { repeat split; [discriminate|discriminate]. }
  destruct activations_preserve_shape as (H1 & H2 & H3).
  split.
  - apply (H1 x Hx).
  - eexists. 
    assert (F : Forall (fun a => cls a <> ActivationBase)
                  (instances
                     (Lambda
                        (Lambda
                           (Instance {| cls := Relu; name := PStr "relu";
                                        kwargs := []; params := [] |})
                           (Instance {| cls := Softmax; name := PStr "softmax";
                                        kwargs := []; params := [] |})
                           (PList [PStr "softmax(relu)"]))
                        (Instance {| cls := NormZ; name := PStr "norm:z";
                                     kwargs := []; params := [] |})
                        (PList [PStr "norm:z(['softmax(relu)'])"])))).
    { repeat constructor; discriminate. }
    destruct (H3 _ x Hx F) as (y & Hy & _).
    exists y. split; [vm_compute; reflexivity|].
    split; [exact Hy|]. apply (H2 _ x y (proj1 Hx) Hy).
Defined.

(** ** Registered names *)

(** Every key of the table is found under itself. *)
Lemma registry_keys_registered :
  Forall (fun kc => Registrar.lookup (fst kc) = Some (snd kc)) Registrar.registry.
Proof. repeat constructor. Qed.

(** C7. A registered key, canonical name or alias, builds an instance
    whose [name] is the key as it was written; the instance belongs to a
    class that defines [__call__], and calling it returns. *)
Theorem build_registered_name (k : string) :
  Registrar.is_registered k = true ->
  exists a,
    build (SName k) [] = Ok (Instance a) /\
    name a = PStr k /\
    cls a <> ActivationBase /\
    forall x, TT.reducible x -> exists y, call (Instance a) x = Ok y.
Proof.
  intros [c Hc]%is_registered_lookup.
  eexists. split; [apply (build_name_ok _ [] Hc); reflexivity|].
  split; [reflexivity|]. split.
  - simpl. apply (lookup_not_base _ Hc).
  - intros x Hx. simpl. apply Activation_call_total; [assumption|].
    simpl. apply (lookup_not_base _ Hc).
Qed.

Lemma build_registered_name_witness :
  (exists a, build (SName "rect:minmax") [] = Ok (Instance a) /\
             name a = PStr "rect:minmax" /\
             cls a <> ActivationBase /\
             forall x, TT.reducible x -> exists y, call (Instance a) x = Ok y)
  /\
  (exists a, build (SName "softmax") [] = Ok (Instance a) /\
             name a = PStr "softmax" /\
             cls a <> ActivationBase /\
             forall x, TT.reducible x -> exists y, call (Instance a) x = Ok y).
Proof.
  split.
  - apply (build_registered_name "rect:minmax"). reflexivity.
  - apply (build_registered_name "softmax"). reflexivity.
Defined.

(** * Further properties of the factory *)

Lemma bind_ret {A : Type} (r : result A) : (x <- r ;; Ok x) = r.
Proof. now destruct r. Qed.

Lemma run_app (l1 l2 : list Activation) (x : TT.tensor) :
  run (l1 ++ l2)%list x = (y <- run l1 x ;; run l2 y).
Proof.
  revert x; induction l1 as [|a l1 IH]; intros x; simpl; [reflexivity|].
  rewrite bind_assoc. destruct (Activation_call a x); simpl; [apply IH|reflexivity].
Qed.

(** Calling a result is running its instances in order: the nesting of the
    function objects does not matter. *)
Lemma call_run (c : callable) (x : TT.tensor) : call c x = run (instances c) x.
Proof.
  revert x; induction c as [a|ca IHa cb IHb n]; intros x; simpl.
  - now rewrite bind_ret.
  - rewrite run_app, IHa. destruct (run (instances ca) x); simpl; [apply IHb|reflexivity].
Qed.

(** Splitting distributes over joining with the separator. *)
Lemma split_app_sep (sep : ascii) (s t : string) :
  Str.split sep (s ++ String sep t) = (Str.split sep s ++ Str.split sep t)%list.
Proof.
  induction s as [|c r IH]; simpl.
  - now rewrite Ascii.eqb_refl.
  - destruct (Ascii.eqb c sep); simpl; [now rewrite IH|].
    rewrite IH. destruct (Str.split sep r) as [|seg rest] eqn:E; [|reflexivity].
    now apply split_not_nil in E.
Qed.

(** With no keyword argument, [build] is the fold over the segments whether
    or not the name holds a ['+']. *)
Lemma build_nil_reduce (s : string) :
  build (SName s) [] =
  reduce compose (map (fun n => build (SName n) []) (Str.split "+"%char s)).
Proof.
  destruct (Str.contains "+"%char s) eqn:Hp.
  - now apply build_plus.
  - rewrite (split_no_sep _ _ Hp). simpl. now rewrite bind_ret.
Qed.

Lemma stands_for_unique (n : string) (a a' : Activation) :
  stands_for n a -> stands_for n a' -> a = a'.
Proof.
  destruct a as [c v k p], a' as [c' v' k' p']. unfold stands_for. simpl.
  intros (H1 & -> & -> & ->) (H2 & -> & -> & ->). congruence.
Qed.

Lemma Forall2_stands_for_unique (ns : list string) (l l' : list Activation) :
  Forall2 stands_for ns l -> Forall2 stands_for ns l' -> l = l'.
Proof.
  intros F; revert l'; induction F as [|n a ns l Ha F IH]; intros l' F';
    inversion F' as [|? a' ? l'' Ha' F'']; subst; [reflexivity|].
  f_equal; [now apply (stands_for_unique Ha Ha')|now apply IH].
Qed.

(** The fold over segments, in full: it succeeds exactly when every segment
    is registered, it adds one instance per segment in order, and its only
    failure is the registry's. *)
Lemma reduce_from_segments (ns : list string) (acc : callable) :
  Forall (fun n => Str.contains "+"%char n = false) ns ->
  if forallb Registrar.is_registered ns then
    exists f l,
      reduce_from compose acc (map (fun n => build (SName n) []) ns) = Ok f /\
      instances f = (instances acc ++ l)%list /\ Forall2 stands_for ns l
  else
    reduce_from compose acc (map (fun n => build (SName n) []) ns) =
    Raise UnknownActivationError.
Proof.
  intros F; revert acc; induction F as [|n ns Hn F IH]; intros acc; simpl.
  - exists acc, []. rewrite app_nil_r. repeat split. constructor.
  - rewrite (build_segment _ Hn).
    destruct (Registrar.lookup n) as [c|] eqn:Hl;
      [rewrite (proj2 (is_registered_lookup n) (ex_intro _ c Hl))
      |rewrite (proj2 (not_registered_lookup n) Hl)]; simpl; [|reflexivity].
    specialize (IH (compose acc
      (Instance {| cls := c; name := PStr n; kwargs := []; params := [] |}))).
    destruct (forallb Registrar.is_registered ns); [|exact IH].
    destruct IH as (f & l & Hf & Hi & Hl2).
    exists f, ({| cls := c; name := PStr n; kwargs := []; params := [] |} :: l).
    split; [exact Hf|]. split.
    + rewrite Hi. simpl. now rewrite <- app_assoc.
    + constructor; [|exact Hl2]. repeat split. exact Hl.
Qed.

Lemma reduce_segments (ns : list string) :
  ns <> [] ->
  Forall (fun n => Str.contains "+"%char n = false) ns ->
  if forallb Registrar.is_registered ns then
    exists f l,
      reduce compose (map (fun n => build (SName n) []) ns) = Ok f /\
      instances f = l /\ Forall2 stands_for ns l
  else
    reduce compose (map (fun n => build (SName n) []) ns) =
    Raise UnknownActivationError.
Proof.
  intros Hne F. destruct F as [|n ns Hn F]; [congruence|]. simpl.
  rewrite (build_segment _ Hn).
  destruct (Registrar.lookup n) as [c|] eqn:Hl;
    [rewrite (proj2 (is_registered_lookup n) (ex_intro _ c Hl))
    |rewrite (proj2 (not_registered_lookup n) Hl)]; simpl; [|reflexivity].
  pose proof (reduce_from_segments
    (Instance {| cls := c; name := PStr n; kwargs := []; params := [] |}) F) as H.
  destruct (forallb Registrar.is_registered ns); [|exact H].
  destruct H as (f & l & Hf & Hi & Hl2).
  exists f, ({| cls := c; name := PStr n; kwargs := []; params := [] |} :: l).
  split; [exact Hf|]. split; [exact Hi|].
  constructor; [|exact Hl2]. repeat split. exact Hl.
Qed.

Lemma split_segments_no_plus (s : string) :
  Forall (fun n => Str.contains "+"%char n = false) (Str.split "+"%char s).
Proof. apply Forall_forall. intros n. apply split_segment_no_sep. Qed.

(** What [build] does with a name and no keyword argument. *)
Lemma build_nil_cases (s : string) :
  if forallb Registrar.is_registered (Str.split "+"%char s) then
    exists f, build (SName s) [] = Ok f /\
              Forall2 stands_for (Str.split "+"%char s) (instances f)
  else build (SName s) [] = Raise UnknownActivationError.
Proof.
  rewrite build_nil_reduce.
  pose proof (reduce_segments (split_not_nil "+"%char s)
                (split_segments_no_plus s)) as H.
  destruct (forallb Registrar.is_registered (Str.split "+"%char s)); [|exact H].
  destruct H as (f & l & Hf & <- & Hl). eauto.
Qed.

Lemma build_plus_instances (s : string) (kw : dict) (f : callable) :
  Str.contains "+"%char s = true ->
  build (SName s) kw = Ok f ->
  Forall2 stands_for (Str.split "+"%char s) (instances f).
Proof.
  intros Hp H.
  rewrite (build_plus _ kw Hp), <- (build_plus _ [] Hp) in H.
  pose proof (build_nil_cases s) as C.
  destruct (forallb Registrar.is_registered (Str.split "+"%char s)).
  - destruct C as (f' & Hf & F). rewrite Hf in H. now injection H as <-.
  - rewrite C in H. discriminate.
Qed.

(** X1. A ['+']-joined name of any number of segments builds one
    instance per segment, in the order written: each is of the class
    registered for its segment, is named by the segment as written and has
    no keyword argument.  Calling the result runs these instances in that
    order. *)
Theorem build_runs_segments_in_order (s : string) (kw : dict) (f : callable) :
  Str.contains "+"%char s = true ->
  build (SName s) kw = Ok f ->
  Forall2 stands_for (Str.split "+"%char s) (instances f) /\
  forall x, call f x = run (instances f) x.
Proof.
  intros Hp H. split; [|intros x; apply call_run].
  exact (build_plus_instances s kw Hp H).
Qed.

Lemma build_runs_segments_in_order_witness :
  exists f, build (SName "relu+norm:max+sigmoid") [] = Ok f /\
            Forall2 stands_for ["relu"; "norm:max"; "sigmoid"] (instances f) /\
            forall x, call f x = run (instances f) x.
Proof.
  eexists. split; [vm_compute; reflexivity|].
  apply (build_runs_segments_in_order "relu+norm:max+sigmoid" []);
    [reflexivity|vm_compute; reflexivity].
Defined.

(** X2. A ['+']-joined name builds exactly when every segment is a
    registered key; otherwise the failure is [UnknownActivationError],
    whatever keyword arguments came with the call. *)
Theorem build_plus_succeeds_iff_registered (s : string) (kw : dict) :
  Str.contains "+"%char s = true ->
  (forallb Registrar.is_registered (Str.split "+"%char s) = true /\
   exists f, build (SName s) kw = Ok f)
  \/
  (forallb Registrar.is_registered (Str.split "+"%char s) = false /\
   build (SName s) kw = Raise UnknownActivationError).
Proof.
  intros Hp. rewrite (build_plus _ kw Hp), <- (build_plus _ [] Hp).
  pose proof (build_nil_cases s) as C.
  destruct (forallb Registrar.is_registered (Str.split "+"%char s)).
  - left. split; [reflexivity|]. destruct C as (f & Hf & _). eauto.
  - right. now split.
Qed.

Lemma build_plus_succeeds_iff_registered_witness :
  (exists f, build (SName "tanh+rect:max") [("self", PInt 1)] = Ok f) /\
  build (SName "tanh+rect") [("self", PInt 1)] = Raise UnknownActivationError.
Proof.
  split.
  - destruct (build_plus_succeeds_iff_registered "tanh+rect:max"
                [("self", PInt 1)] eq_refl) as [[_ H]|[H _]];
      [exact H|discriminate H].
  - destruct (build_plus_succeeds_iff_registered "tanh+rect"
                [("self", PInt 1)] eq_refl) as [[H _]|[_ H]];
      [discriminate H|exact H].
Defined.

Lemma build_nil_ok_inv (s : string) (f : callable) :
  build (SName s) [] = Ok f ->
  forallb Registrar.is_registered (Str.split "+"%char s) = true /\
  Forall2 stands_for (Str.split "+"%char s) (instances f).
Proof.
  intros H. pose proof (build_nil_cases s) as C.
  destruct (forallb Registrar.is_registered (Str.split "+"%char s)).
  - destruct C as (f' & Hf & F). rewrite Hf in H. injection H as <-. now split.
  - rewrite C in H. discriminate.
Qed.

(** The segments of a joined name are those of its two parts, so the
    registry is asked the same questions. *)
Lemma joined_segments_registered (s t : string) (fs ft : callable) :
  build (SName s) [] = Ok fs ->
  build (SName t) [] = Ok ft ->
  forallb Registrar.is_registered
          (Str.split "+"%char (s ++ String "+"%char t)) = true /\
  Forall2 stands_for (Str.split "+"%char (s ++ String "+"%char t))
          (instances fs ++ instances ft)%list.
Proof.
  intros [Rs Fs]%build_nil_ok_inv [Rt Ft]%build_nil_ok_inv.
  rewrite split_app_sep, forallb_app, Rs, Rt.
  split; [reflexivity|now apply Forall2_app].
Qed.

(** A result made of the instances of two others computes the first and
    then the second. *)
Lemma call_joined_instances (f fs ft : callable) (x : TT.tensor) :
  instances f = (instances fs ++ instances ft)%list ->
  call f x = (y <- call fs x ;; call ft y).
Proof.
  intros E. rewrite (call_run f), E, run_app, <- (call_run fs).
  destruct (call fs x); simpl; [symmetry; apply call_run|reflexivity].
Qed.

(** X3. Joining two names that build, simple or themselves joined, with
    a ['+'] builds a result that holds the instances of the first followed
    by those of the second, and that applies the first result and then the
    second. *)
Theorem build_join (s t : string) (kw : dict) (fs ft : callable) :
  build (SName s) [] = Ok fs ->
  build (SName t) [] = Ok ft ->
  exists f,
    build (SName (s ++ "+" ++ t)) kw = Ok f /\
    instances f = (instances fs ++ instances ft)%list /\
    forall x, call f x = (y <- call fs x ;; call ft y).
Proof.
  intros Hs Ht.
  destruct (joined_segments_registered s t Hs Ht) as [R F].
  change ("+" ++ t) with (String "+"%char t).
  assert (Hp : Str.contains "+"%char (s ++ String "+"%char t) = true)
    by apply contains_join.
  rewrite (build_plus _ kw Hp), <- (build_plus _ [] Hp).
  pose proof (build_nil_cases (s ++ String "+"%char t)) as C.
  rewrite R in C. destruct C as (f & Hf & F').
  exists f. split; [exact Hf|].
  assert (E : instances f = (instances fs ++ instances ft)%list)
    by apply (Forall2_stands_for_unique F' F).
  split; [exact E|].
  intros x. now apply call_joined_instances.
Qed.

Lemma build_join_witness :
  exists fs ft f,
    build (SName "relu+tanh") [] = Ok fs /\
    build (SName "norm:z+sigmoid") [] = Ok ft /\
    build (SName "relu+tanh+norm:z+sigmoid") [] = Ok f /\
    instances f = (instances fs ++ instances ft)%list /\
    forall x, call f x = (y <- call fs x ;; call ft y).
Proof.
  do 2 eexists.
  assert (Hs : build (SName "relu+tanh") [] = Ok _) by (vm_compute; reflexivity).
  assert (Ht : build (SName "norm:z+sigmoid") [] = Ok _) by (vm_compute; reflexivity).
  destruct (build_join "relu+tanh" "norm:z+sigmoid" [] Hs Ht) as (f & Hf & E & C).
  exists f. repeat split; [exact Hs|exact Ht|exact Hf|exact E|exact C].
Defined.

(** X4. [linear] is neutral in a composition: put before or after a
    name that builds, it gives a result that computes what the name alone
    computes. *)
Theorem linear_is_neutral (s : string) (kw : dict) (fs : callable) :
  build (SName s) [] = Ok fs ->
  exists f g,
    build (SName (s ++ "+linear")) kw = Ok f /\
    build (SName ("linear+" ++ s)) kw = Ok g /\
    forall x, call f x = call fs x /\ call g x = call fs x.
Proof.
  intros Hs.
  assert (Hl : build (SName "linear") [] =
               Ok (Instance {| cls := Linear; name := PStr "linear";
                               kwargs := []; params := [] |}))
    by (vm_compute; reflexivity).
  assert (J : forall a b fa fb,
             build (SName a) [] = Ok fa -> build (SName b) [] = Ok fb ->
             exists f, build (SName (a ++ String "+"%char b)) kw = Ok f /\
                       forall x, call f x = (y <- call fa x ;; call fb y)).
  { intros a b fa fb Ha Hb.
    destruct (joined_segments_registered a b Ha Hb) as [R F].
    rewrite (build_plus _ kw (contains_join _ a b)),
      <- (build_plus _ [] (contains_join _ a b)).
    pose proof (build_nil_cases (a ++ String "+"%char b)) as C.
    rewrite R in C. destruct C as (f & Hf & F').
    exists f. split; [exact Hf|]. intros x.
    apply call_joined_instances, (Forall2_stands_for_unique F' F). }
  destruct (J s "linear" _ _ Hs Hl) as (f & Hf & Cf).
  destruct (J "linear" s _ _ Hl Hs) as (g & Hg & Cg).
  exists f, g. split; [exact Hf|]. split; [exact Hg|].
  intros x. rewrite Cf, Cg. split.
  - simpl. unfold Activation_call, Linear_call. simpl. apply bind_ret.
  - reflexivity.
Qed.

Lemma linear_is_neutral_witness :
  exists fs f g,
    build (SName "softmax") [] = Ok fs /\
    build (SName "softmax+linear") [] = Ok f /\
    build (SName "linear+softmax") [] = Ok g /\
    forall x, call f x = call fs x /\ call g x = call fs x.
Proof.
  eexists.
  assert (Hs : build (SName "softmax") [] = Ok _) by (vm_compute; reflexivity).
  destruct (linear_is_neutral "softmax" [] Hs) as (f & g & Hf & Hg & C).
  exists f, g. repeat split; solve [exact Hs|exact Hf|exact Hg|apply C].
Defined.

(** X5. Two keys registered for the same class, a class name and its
    alias or one key in two letter cases, build instances that compute the
    same function; each keeps the key it was built from as its name. *)
Theorem same_class_same_function (k1 k2 : string) (c : variant) :
  Registrar.lookup k1 = Some c ->
  Registrar.lookup k2 = Some c ->
  exists a1 a2,
    build (SName k1) [] = Ok (Instance a1) /\
    build (SName k2) [] = Ok (Instance a2) /\
    name a1 = PStr k1 /\ name a2 = PStr k2 /\
    forall x, call (Instance a1) x = call (Instance a2) x.
Proof.
  intros H1 H2. do 2 eexists.
  split; [apply (build_name_ok _ [] H1); reflexivity|].
  split; [apply (build_name_ok _ [] H2); reflexivity|].
  repeat split.
Qed.

Lemma same_class_same_function_witness :
  exists a1 a2,
    build (SName "sigmoid") [] = Ok (Instance a1) /\
    build (SName "Logistic") [] = Ok (Instance a2) /\
    name a1 = PStr "sigmoid" /\ name a2 = PStr "Logistic" /\
    forall x, call (Instance a1) x = call (Instance a2) x.
Proof.
  apply (same_class_same_function "sigmoid" "Logistic" (c := Logistic));
    reflexivity.
Defined.
